(** * lstm-parser: the vocabulary and corpus layer ([parser/corpus.h])

    A shallow embedding of [CorpusVocabulary], its (de)serialization and the
    [Sentence] token maps, followed by the properties of the specification
    that concern them.

    Conventions of the embedding:
    - [unsigned] and [int] are 32-bit; their values are integers of [Z] and
      every conversion of the source is written out ([Unsigned.wrap],
      [Int.wrap]).  [size_t] values are lengths ([nat]).
    - [std::map<std::string, unsigned>] is a [gmap string Z]; its iteration
      order is never observed by the header.
    - [std::map<unsigned, T>] of a [Sentence] is observed in iteration order,
      hence a key-sorted association list ([TokenMap]).
    - [std::vector<T>] is a [list T]; [v[i]] outside the vector and
      [m.find(k)->second] on a missing key are undefined in C++ and make the
      embedded method return [None]. *)

From stdpp Require Import base option list gmap strings fin_maps.
From Stdlib Require Import ZArith Lia Ascii.

Local Open Scope Z_scope.

(** ** Machine integers *)

Module Unsigned.
Definition modulus : Z := 2 ^ 32.

(** Conversion of an integer value to [unsigned]. *)
Definition wrap (z : Z) : Z := z mod modulus.

(** Conversion of a [size_t] to [unsigned]. *)
Definition of_size (n : nat) : Z := wrap (Z.of_nat n).

Definition in_range (z : Z) : Prop := 0 <= z < modulus.

Lemma wrap_in_range z : in_range (wrap z).
Proof. unfold in_range, wrap, modulus. apply Z.mod_pos_bound. lia. Qed.

Lemma wrap_small z : in_range z -> wrap z = z.
Proof. unfold in_range, wrap. intros H. apply Z.mod_small. exact H. Qed.

Lemma of_size_small (n : nat) : Z.of_nat n < modulus -> of_size n = Z.of_nat n.
Proof. intros H. apply wrap_small. unfold in_range. lia. Qed.

Lemma wrap_lower z : -1 < wrap z.
Proof. pose proof (wrap_in_range z) as H. unfold in_range in H. lia. Qed.

Lemma wrap_upper z : wrap z < modulus.
Proof. apply wrap_in_range. Qed.
End Unsigned.

Module Int.
Definition half : Z := 2 ^ 31.

(** Conversion of an integer value to [int] (two's complement). *)
Definition wrap (z : Z) : Z := (z + half) mod Unsigned.modulus - half.

Lemma unsigned_of_int z : Unsigned.wrap (wrap z) = Unsigned.wrap z.
Proof.
  unfold wrap, Unsigned.wrap, half, Unsigned.modulus.
  rewrite <- Zminus_mod_idemp_l, Z.mod_mod by lia.
  rewrite Zminus_mod_idemp_l. f_equal. lia.
Qed.
End Int.

(** ** The vocabulary *)

Record CorpusVocabulary : Type := mkCorpusVocabulary {
  words_to_int : gmap string Z;
  int_to_words : list string;
  int_to_training_word : list bool;
  pos_to_int : gmap string Z;
  int_to_pos : list string;
  chars_to_int : gmap string Z;
  int_to_chars : list string;
  actions : list string;
  actions_to_arc_labels : list string
}.

(** Field updates. *)
Definition with_words (m : gmap string Z) (l : list string) (V : CorpusVocabulary) :=
  mkCorpusVocabulary m l (int_to_training_word V)
    (pos_to_int V) (int_to_pos V) (chars_to_int V) (int_to_chars V)
    (actions V) (actions_to_arc_labels V).

Definition with_training (t : list bool) (V : CorpusVocabulary) :=
  mkCorpusVocabulary (words_to_int V) (int_to_words V) t
    (pos_to_int V) (int_to_pos V) (chars_to_int V) (int_to_chars V)
    (actions V) (actions_to_arc_labels V).

Definition with_pos (m : gmap string Z) (l : list string) (V : CorpusVocabulary) :=
  mkCorpusVocabulary (words_to_int V) (int_to_words V) (int_to_training_word V)
    m l (chars_to_int V) (int_to_chars V)
    (actions V) (actions_to_arc_labels V).

Definition with_chars (m : gmap string Z) (l : list string) (V : CorpusVocabulary) :=
  mkCorpusVocabulary (words_to_int V) (int_to_words V) (int_to_training_word V)
    (pos_to_int V) (int_to_pos V) m l
    (actions V) (actions_to_arc_labels V).

Definition with_actions (a : list string) (V : CorpusVocabulary) :=
  mkCorpusVocabulary (words_to_int V) (int_to_words V) (int_to_training_word V)
    (pos_to_int V) (int_to_pos V) (chars_to_int V) (int_to_chars V)
    a (actions_to_arc_labels V).

Definition with_arc_labels (a : list string) (V : CorpusVocabulary) :=
  mkCorpusVocabulary (words_to_int V) (int_to_words V) (int_to_training_word V)
    (pos_to_int V) (int_to_pos V) (chars_to_int V) (int_to_chars V)
    (actions V) a.

(** ** Member functions: a state-and-failure monad over the object

    A member function receives the object, and either is undefined ([None])
    or returns its result with the object as it leaves it. *)

Definition Method (A : Type) : Type := CorpusVocabulary -> option (A * CorpusVocabulary).

#[global] Instance method_ret : MRet Method := fun A a V => Some (a, V).

#[global] Instance method_bind : MBind Method := fun A B k m V =>
  match m V with
  | Some (a, V') => k a V'
  | None => None
  end.

Definition this : Method CorpusVocabulary := fun V => Some (V, V).

Definition assign (f : CorpusVocabulary -> CorpusVocabulary) : Method unit :=
  fun V => Some (tt, f V).

Definition undefined {A} : Method A := fun _ => None.

(** ** Static helpers on one table ([StrToIntMap] and its indexed list) *)

(** [AddEntry]: the new id is the list's size, converted to [int];
    [std::map::insert] keeps an entry that is already there. *)
Definition AddEntry (str : string) (map : gmap string Z) (indexed_list : list string)
  : Z * gmap string Z * list string :=
  let new_id := Int.wrap (Z.of_nat (length indexed_list)) in
  let map' := match map !! str with
              | Some _ => map
              | None => <[str := Unsigned.wrap new_id]> map
              end in
  (new_id, map', indexed_list ++ [str]).

(** [GetOrAddEntry]: the result is [unsigned]. *)
Definition GetOrAddEntry (str : string) (map : gmap string Z) (indexed_list : list string)
  : Z * gmap string Z * list string :=
  match map !! str with
  | None =>
      let '(new_id, map', list') := AddEntry str map indexed_list in
      (Unsigned.wrap new_id, map', list')
  | Some id => (id, map, indexed_list)
  end.

(** ** Archives

    [boost::serialization] archives, reduced to what [SerializeLists] uses:
    [ar & v] on a vector of strings and on a vector of booleans.  An output
    archive appends the vector; an input archive replaces the vector by the
    next stored one.  The embedding describes reads that meet a stored
    vector of the kind that is read; on an exhausted stream, or on a
    stored vector of the other kind, it stops with [None] and says nothing
    about what the library does there. *)

Inductive item : Type :=
| StrVec (v : list string)
| BoolVec (v : list bool).

Class Archive (Ar : Type) : Type := {
  ar_strings : Ar -> list string -> option (Ar * list string);
  ar_bools : Ar -> list bool -> option (Ar * list bool)
}.

Record oarchive : Type := OArchive { written : list item }.
Record iarchive : Type := IArchive { pending : list item }.

#[global] Instance oarchive_Archive : Archive oarchive := {|
  ar_strings ar v := Some (OArchive (written ar ++ [StrVec v]), v);
  ar_bools ar v := Some (OArchive (written ar ++ [BoolVec v]), v)
|}.

#[global] Instance iarchive_Archive : Archive iarchive := {|
  ar_strings ar _ :=
    match pending ar with
    | StrVec v :: rest => Some (IArchive rest, v)
    | _ => None
    end;
  ar_bools ar _ :=
    match pending ar with
    | BoolVec v :: rest => Some (IArchive rest, v)
    | _ => None
    end
|}.

(** What [load] writes to [std::cerr]. *)
Inductive message : Type :=
| LostWords (n : Z).   (* "WARNING: lost <n> words when loading model" *)

(** The loops of [load] that rebuild a reverse mapping:
    [for (size_t i = 0; i < list.size(); ++i) map[list[i]] = i;]. *)
Fixpoint reindex (i : nat) (indexed_list : list string) (map : gmap string Z)
  : gmap string Z :=
  match indexed_list with
  | [] => map
  | str :: rest => reindex (S i) rest (<[str := Unsigned.of_size i]> map)
  end.

Section Vocabulary.

(** String literals of the class, defined outside the header. *)
Variables BAD0 UNK : string.

(** [boost::regex_search(action, match, ARC_ACTION_REGEX)]: [Some] of the
    first capture group [match[1]] when the pattern is found. *)
Variable ARC_ACTION_REGEX : string -> option string.

(** Default constructor. *)
Definition CorpusVocabulary_new : CorpusVocabulary :=
  let '(_, w2i, i2w) := AddEntry BAD0 ∅ [] in
  let '(_, w2i, i2w) := AddEntry UNK w2i i2w in
  let '(_, c2i, i2c) := AddEntry BAD0 ∅ [] in
  mkCorpusVocabulary w2i i2w [true; true] ∅ [] c2i i2c [] [].

(** Copy constructor: everything except the action-related members, which
    are default-initialised. *)
Definition CorpusVocabulary_copy (other : CorpusVocabulary) : CorpusVocabulary :=
  mkCorpusVocabulary
    (words_to_int other) (int_to_words other) (int_to_training_word other)
    (pos_to_int other) (int_to_pos other)
    (chars_to_int other) (int_to_chars other)
    [] [].

Definition CountPOS : Method Z :=
  V ← this; mret (Unsigned.of_size (size (pos_to_int V))).
Definition CountWords : Method Z :=
  V ← this; mret (Unsigned.of_size (size (words_to_int V))).
Definition CountChars : Method Z :=
  V ← this; mret (Unsigned.of_size (size (chars_to_int V))).
Definition CountActions : Method Z :=
  V ← this; mret (Unsigned.of_size (length (actions V))).

Definition GetWord (word : string) : Method Z :=
  V ← this;
  match words_to_int V !! word with
  | None =>
      match words_to_int V !! UNK with
      | Some id => mret id
      | None => undefined
      end
  | Some id => mret id
  end.

Definition GetPOS (word : string) : Method Z :=
  V ← this;
  match pos_to_int V !! word with
  | None => mret (Unsigned.wrap (-1))
  | Some id => mret id
  end.

(** [GetOrAddEntry(word, &words_to_int, &int_to_words)] on the object. *)
Definition GetOrAddEntry_words (word : string) : Method Z :=
  V ← this;
  let '(id, m, l) := GetOrAddEntry word (words_to_int V) (int_to_words V) in
  assign (with_words m l);; mret id.

Definition GetOrAddWord (word : string) (record_as_training : bool) : Method Z :=
  num_words ← CountWords;
  word_id ← GetOrAddEntry_words word;
  n ← CountWords;
  (if decide (n > num_words) then
     assign (fun V => with_training (int_to_training_word V ++ [record_as_training]) V)
   else
     V ← this;
     match int_to_training_word V !! Z.to_nat word_id with
     | Some old =>
         assign (with_training
                   (<[Z.to_nat word_id := old || record_as_training]>
                      (int_to_training_word V)))
     | None => undefined
     end);;
  mret word_id.

Definition GetLabelForAction (action : string) : string :=
  match ARC_ACTION_REGEX action with
  | Some label => label
  | None => "NONE"%string
  end.

(** [SerializeLists]: one body for both directions, in the field order of
    the persisted format. *)
Definition SerializeLists {Ar} `{Archive Ar} (ar : Ar) (version : Z)
    (vocab : CorpusVocabulary) : option (Ar * CorpusVocabulary) :=
  '(ar, v) ← ar_strings ar (int_to_words vocab);
  let vocab := with_words (words_to_int vocab) v vocab in
  '(ar, v) ← ar_strings ar (int_to_pos vocab);
  let vocab := with_pos (pos_to_int vocab) v vocab in
  '(ar, v) ← ar_strings ar (int_to_chars vocab);
  let vocab := with_chars (chars_to_int vocab) v vocab in
  '(ar, v) ← ar_bools ar (int_to_training_word vocab);
  let vocab := with_training v vocab in
  '(ar, v) ← ar_strings ar (actions vocab);
  let vocab := with_actions v vocab in
  Some (ar, vocab).

(** [save] is [const]: only the archive changes. *)
Definition save (ar : oarchive) (version : Z) (V : CorpusVocabulary)
  : option oarchive :=
  fst <$> SerializeLists ar version V.

Definition load (ar : iarchive) (version : Z) : Method (iarchive * list message) :=
  V ← this;
  let num_existing_words := Unsigned.of_size (length (int_to_words V)) in
  assign (with_words ∅ []);;
  assign (with_pos ∅ []);;
  assign (with_chars ∅ []);;
  ar ← (fun V => SerializeLists ar version V);
  V ← this;
  let cerr :=
    if decide (Z.of_nat (length (int_to_words V)) < num_existing_words)
    then [LostWords (num_existing_words - Z.of_nat (length (int_to_words V)))]
    else [] in
  (* Now reconstruct the reverse mappings... *)
  assign (fun V => with_words (reindex 0 (int_to_words V) (words_to_int V))
                              (int_to_words V) V);;
  assign (fun V => with_pos (reindex 0 (int_to_pos V) (pos_to_int V))
                            (int_to_pos V) V);;
  assign (fun V => with_chars (reindex 0 (int_to_chars V) (chars_to_int V))
                              (int_to_chars V) V);;
  (* ...and the arc labels. *)
  assign (fun V => with_arc_labels
                     (foldl (fun labels action => labels ++ [GetLabelForAction action])
                            (actions_to_arc_labels V) (actions V)) V);;
  mret (ar, cerr).

End Vocabulary.

(** ** Sentences

    [std::map<unsigned, T>]: entries in strictly ascending key order, every
    key an [unsigned] value.  Iterating the map visits [entries] from left to
    right. *)

Module TokenMap.
Section Def.
Context {T : Type}.

Fixpoint ascending (lo : Z) (l : list (Z * T)) : bool :=
  match l with
  | [] => true
  | (k, _) :: rest => (lo <? k) && (k <? Unsigned.modulus) && ascending k rest
  end.

Record t : Type := mk {
  entries : list (Z * T);
  entries_ok : ascending (-1) entries = true
}.

Definition empty : t := mk [] eq_refl.

Fixpoint find_in (k : Z) (l : list (Z * T)) : option T :=
  match l with
  | [] => None
  | (k', v) :: rest => if k =? k' then Some v else find_in k rest
  end.

Definition find (k : Z) (m : t) : option T := find_in k (entries m).

Definition size (m : t) : nat := length (entries m).

(** [m[k] = v] on the entries. *)
Fixpoint put (k : Z) (v : T) (l : list (Z * T)) : list (Z * T) :=
  match l with
  | [] => [(k, v)]
  | (k', v') :: rest =>
      if k <? k' then (k, v) :: (k', v') :: rest
      else if k =? k' then (k, v) :: rest
      else (k', v') :: put k v rest
  end.

Lemma put_ascending k v l lo :
  lo < k -> k < Unsigned.modulus ->
  ascending lo l = true -> ascending lo (put k v l) = true.
Proof.
  revert lo. induction l as [|[k' v'] rest IH]; intros lo Hlo Hk Hl; simpl in *.
  - rewrite !andb_true_r. apply andb_true_intro. split; apply Z.ltb_lt; lia.
  - apply andb_prop in Hl as [Hl Hrest]. apply andb_prop in Hl as [H1 H2].
    apply Z.ltb_lt in H1, H2.
    destruct (k <? k') eqn:E1; [|destruct (k =? k') eqn:E2]; simpl.
    + apply Z.ltb_lt in E1. rewrite Hrest.
      repeat (apply andb_true_intro; split); try apply Z.ltb_lt; auto; lia.
    + apply Z.eqb_eq in E2. subst k'. rewrite Hrest.
      repeat (apply andb_true_intro; split); try apply Z.ltb_lt; auto.
    + apply Z.ltb_ge in E1. apply Z.eqb_neq in E2.
      repeat (apply andb_true_intro; split); try apply Z.ltb_lt; auto.
      apply IH; auto. lia.
Qed.

(** [m[k] = v]: the key is converted to [unsigned]. *)
Definition assign (k : Z) (v : T) (m : t) : t :=
  mk (put (Unsigned.wrap k) v (entries m))
     (put_ascending (Unsigned.wrap k) v (entries m) (-1)
        (Unsigned.wrap_lower k) (Unsigned.wrap_upper k) (entries_ok m)).
End Def.
Arguments t : clear implicits.
End TokenMap.

Record Sentence : Type := mkSentence {
  words : TokenMap.t Z;
  poses : TokenMap.t Z;
  unk_surface_forms : TokenMap.t string
}.

Definition Size (s : Sentence) : nat := TokenMap.size (words s).

Module Corpus.
(** [static constexpr unsigned ROOT_TOKEN_ID = -1;] *)
Definition ROOT_TOKEN_ID : Z := Unsigned.wrap (-1).
End Corpus.

(** ** The arc-action pattern *)

(** [s = p ++ r] gives [Some r]. *)
Fixpoint strip_prefix (p s : string) : option string :=
  match p, s with
  | EmptyString, _ => Some s
  | String a p', String b s' =>
      if decide (a = b) then strip_prefix p' s' else None
  | String _ _, EmptyString => None
  end.

(** The text after the leftmost occurrence of [p] in [s]. *)
Fixpoint after_first (p s : string) : option string :=
  match strip_prefix p s with
  | Some r => Some r
  | None =>
      match s with
      | EmptyString => None
      | String _ s' => after_first p s'
      end
  end.

(** [s = r ++ [c]] gives [Some r]. *)
Fixpoint strip_last (c : ascii) (s : string) : option string :=
  match s with
  | EmptyString => None
  | String a EmptyString => if decide (a = c) then Some EmptyString else None
  | String a s' => String a <$> strip_last c s'
  end.

(** Modelled from the spec: the regular expression [ARC_ACTION_REGEX] is
    defined outside the header.  The specification describes it as the
    action naming convention ["<DIRECTION>-ARC(<label>)"], whose captured
    group is the label: the action ends with [")"], and the label is what
    stands between the leftmost ["-ARC("] and that final [")"]. *)
Definition arc_action_pattern (action : string) : option string :=
  body ← strip_last ")" action;
  after_first "-ARC(" body.

(** [GetLabelForAction] with that pattern. *)
Definition derive_arc_label : string -> string :=
  GetLabelForAction arc_action_pattern.

(** The shape of an arc action name. *)
Definition arc_action_name (direction label : string) : string :=
  direction +:+ "-ARC(" +:+ label +:+ ")".

(** ** Sequences of calls *)

Fixpoint GetOrAddWords (calls : list (string * bool)) : Method (list Z) :=
  match calls with
  | [] => mret []
  | (word, record_as_training) :: rest =>
      id ← GetOrAddWord word record_as_training;
      ids ← GetOrAddWords rest;
      mret (id :: ids)
  end.

(** ** Data-model invariants *)

(** A table: the map and its indexed list are inverse to each other and
    have the same size. *)
Definition table_ok (map : gmap string Z) (indexed_list : list string) : Prop :=
  (forall w i, map !! w = Some i <-> 0 <= i /\ indexed_list !! Z.to_nat i = Some w)
  /\ size map = length indexed_list.

(** The word table, with one training flag per word. *)
Definition words_ok (V : CorpusVocabulary) : Prop :=
  table_ok (words_to_int V) (int_to_words V)
  /\ length (int_to_training_word V) = length (int_to_words V).

(** The two reserved words hold ids 0 and 1. *)
Definition reserved (BAD0 UNK : string) (V : CorpusVocabulary) : Prop :=
  words_to_int V !! BAD0 = Some 0 /\ words_to_int V !! UNK = Some 1.

(** The arc labels are the ones derived from the actions. *)
Definition labels_ok (regex : string -> option string) (V : CorpusVocabulary) : Prop :=
  actions_to_arc_labels V = map (GetLabelForAction regex) (actions V).

(** A reverse mapping rebuilt from its indexed list: every listed string is
    mapped to a position that holds it, and nothing else is mapped. *)
Definition rebuilt (map : gmap string Z) (indexed_list : list string) : Prop :=
  forall w,
    (w ∈ indexed_list ->
     exists k, indexed_list !! k = Some w /\ map !! w = Some (Unsigned.of_size k))
    /\ (w ∉ indexed_list -> map !! w = None).

(** The five persisted fields of an object, in their order. *)
Definition persisted (V : CorpusVocabulary) : list item :=
  [StrVec (int_to_words V); StrVec (int_to_pos V); StrVec (int_to_chars V);
   BoolVec (int_to_training_word V); StrVec (actions V)].

(** What [load] writes to [std::cerr] given the word counts before and after
    reading: the count before is held in an [unsigned]. *)
Definition shrinkage (before after : nat) : list message :=
  if decide (Z.of_nat after < Unsigned.of_size before)
  then [LostWords (Unsigned.of_size before - Z.of_nat after)]
  else [].

(** The object after a [load] that can read its five fields: everything is
    replaced by what the archive holds, except the arc labels, which are
    appended to. *)
Definition loaded (regex : string -> option string) (w p c a : list string)
    (t : list bool) (T : CorpusVocabulary) : CorpusVocabulary :=
  mkCorpusVocabulary (reindex 0 w ∅) w t (reindex 0 p ∅) p (reindex 0 c ∅) c a
    (actions_to_arc_labels T ++ map (GetLabelForAction regex) a).

(** The objects the class builds: by its constructors, by [GetOrAddWord],
    by loading what one of them saved, and by changes to the members that
    are not part of the word table. *)
Inductive constructed (BAD0 UNK : string) (regex : string -> option string)
  : CorpusVocabulary -> Prop :=
| constructed_new :
    constructed BAD0 UNK regex (CorpusVocabulary_new BAD0 UNK)
| constructed_copy V :
    constructed BAD0 UNK regex V ->
    constructed BAD0 UNK regex (CorpusVocabulary_copy V)
| constructed_word V word b id V' :
    constructed BAD0 UNK regex V ->
    GetOrAddWord word b V = Some (id, V') ->
    constructed BAD0 UNK regex V'
| constructed_load V T :
    constructed BAD0 UNK regex V ->
    constructed BAD0 UNK regex T ->
    constructed BAD0 UNK regex
      (loaded regex (int_to_words V) (int_to_pos V) (int_to_chars V) (actions V)
              (int_to_training_word V) T)
| constructed_other V pm pl cm cl a labels :
    constructed BAD0 UNK regex V ->
    constructed BAD0 UNK regex
      (with_arc_labels labels (with_actions a (with_chars cm cl (with_pos pm pl V)))).

(** ** Example objects *)

Definition example_vocabulary : CorpusVocabulary :=
  CorpusVocabulary_new "<BAD0>" "<UNK>".

Definition example_calls : list (string * bool) :=
  [("dog"%string, false); ("<UNK>"%string, false); ("dog"%string, true)].

(** A sentence of two real tokens whose ROOT token was recorded first. *)
Definition example_sentence : Sentence :=
  mkSentence
    (TokenMap.assign 2 5 (TokenMap.assign 1 4
       (TokenMap.assign (-1) 9 TokenMap.empty)))
    (TokenMap.assign 2 1 (TokenMap.assign 1 0
       (TokenMap.assign (-1) 2 TokenMap.empty)))
    TokenMap.empty.

(** A persisted vocabulary with the two reserved words and two actions. *)
Definition example_archive : list item :=
  [StrVec ["<BAD0>"; "<UNK>"]%string; StrVec []; StrVec ["<BAD0>"%string];
   BoolVec [true; true]; StrVec ["SHIFT"; "LEFT-ARC(nsubj)"]%string].

(** ** The oracle-transitions reader: string helpers

    [std::string] operations used by [ReplaceStringInPlace], on [string]:
    positions and lengths are [size_t] values ([nat]); [npos] is [None]. *)

Fixpoint string_take (n : nat) (s : string) : string :=
  match n, s with
  | S n', String c s' => String c (string_take n' s')
  | _, _ => EmptyString
  end.

Fixpoint string_drop (n : nat) (s : string) : string :=
  match n, s with
  | S n', String c s' => string_drop n' s'
  | _, _ => s
  end.

(** The first position, counted from [i], at which [search] starts in [s]. *)
Fixpoint find_at (search s : string) (i : nat) : option nat :=
  match strip_prefix search s with
  | Some _ => Some i
  | None =>
      match s with
      | EmptyString => None
      | String _ s' => find_at search s' (S i)
      end
  end.

(** [subject.find(search, pos)]: [npos] when [pos] is beyond the end. *)
Definition string_find (subject search : string) (pos : nat) : option nat :=
  if decide (pos <= String.length subject)%nat
  then find_at search (string_drop pos subject) pos
  else None.

(** [subject.replace(pos, len, str)], for [pos] within the string. *)
Definition string_replace (subject : string) (pos len : nat) (str : string) : string :=
  string_take pos subject +:+ str +:+ string_drop (pos + len) subject.

(** The loop of [ReplaceStringInPlace]; [fuel] bounds the number of times
    the condition is evaluated, and [None] means it was not enough. *)
Fixpoint ReplaceStringInPlace_loop (fuel : nat) (subject search replace : string)
    (pos : nat) : option string :=
  match fuel with
  | O => None
  | S fuel' =>
      match string_find subject search pos with
      | None => Some subject
      | Some pos' =>
          ReplaceStringInPlace_loop fuel'
            (string_replace subject pos' (String.length search) replace)
            search replace (pos' + String.length replace)
      end
  end.

Definition ReplaceStringInPlace (fuel : nat) (subject search replace : string)
  : option string :=
  ReplaceStringInPlace_loop fuel subject search replace 0.

(** [UTF8Len], on the value of an [unsigned char]. *)
Definition UTF8Len (x : Z) : Z :=
  if decide (x < 128) then 1
  else if decide (Z.shiftr x 5 = 6) then 2
  else if decide (Z.shiftr x 4 = 14) then 3
  else if decide (Z.shiftr x 3 = 30) then 4
  else if decide (Z.shiftr x 2 = 62) then 5
  else if decide (Z.shiftr x 1 = 126) then 6
  else 0.

(** * Properties *)

(** ** Strings and the arc-action pattern *)

Lemma append_nil (t : string) : "" +:+ t = t.
Proof. reflexivity. Qed.

Lemma append_cons (a : ascii) (s t : string) : String a s +:+ t = String a (s +:+ t).
Proof. reflexivity. Qed.

Lemma append_assoc (s t u : string) : (s +:+ t) +:+ u = s +:+ (t +:+ u).
Proof.
  induction s as [|a s IH]; [reflexivity|].
  rewrite !append_cons. now rewrite IH.
Qed.

Lemma strip_prefix_append (p r : string) : strip_prefix p (p +:+ r) = Some r.
Proof.
  induction p as [|a p IH].
  - rewrite append_nil. now destruct r.
  - rewrite append_cons. simpl. now rewrite decide_True.
Qed.

Lemma strip_prefix_Some (p s r : string) :
  strip_prefix p s = Some r -> s = p +:+ r.
Proof.
  revert s. induction p as [|a p IH]; intros s H.
  - destruct s; simpl in H; now inversion H.
  - destruct s as [|b s]; simpl in H; [discriminate|].
    destruct (decide (a = b)) as [->|]; [|discriminate].
    rewrite append_cons. f_equal. now apply IH.
Qed.

Lemma after_first_Some (p s r : string) :
  after_first p s = Some r -> exists d, s = d +:+ p +:+ r.
Proof.
  induction s as [|b s IH]; simpl; intros H.
  - destruct (strip_prefix p "") eqn:E; [|discriminate].
    inversion H; subst. exists ""%string. rewrite append_nil.
    now apply strip_prefix_Some.
  - destruct (strip_prefix p (String b s)) eqn:E.
    + inversion H; subst. exists ""%string. rewrite append_nil.
      now apply strip_prefix_Some.
    + destruct (IH H) as [d Hd]. exists (String b d). rewrite append_cons.
      now f_equal.
Qed.

Lemma after_first_append (p d x : string) :
  is_Some (after_first p (d +:+ p +:+ x)).
Proof.
  induction d as [|b d IH].
  - rewrite append_nil.
    assert (after_first p (p +:+ x) = Some x) as ->; [|eauto].
    destruct (p +:+ x) eqn:E; simpl; rewrite <- E, strip_prefix_append; reflexivity.
  - rewrite append_cons. simpl.
    destruct (strip_prefix p (String b (d +:+ p +:+ x))); eauto.
Qed.

Lemma strip_last_append (c : ascii) (r : string) :
  strip_last c (r +:+ String c "") = Some r.
Proof.
  induction r as [|a r IH].
  - simpl. now rewrite decide_True.
  - rewrite append_cons. simpl. rewrite IH.
    destruct (r +:+ String c "") eqn:E; [|reflexivity].
    destruct r; discriminate.
Qed.

Lemma strip_last_Some (c : ascii) (s r : string) :
  strip_last c s = Some r -> s = r +:+ String c "".
Proof.
  revert r. induction s as [|a s IH]; intros r H; [discriminate|].
  simpl in H. destruct s as [|b s].
  - destruct (decide (a = c)) as [->|]; [|discriminate]. now inversion H.
  - destruct (strip_last c (String b s)) as [r'|] eqn:E; [|discriminate].
    inversion H; subst. rewrite append_cons. f_equal. now apply IH.
Qed.

(** The pattern accepts exactly the names of the shape
    [direction-ARC(label)], and its group is a label of such a reading. *)
Lemma arc_action_pattern_Some (action label : string) :
  arc_action_pattern action = Some label ->
  exists direction, action = arc_action_name direction label.
Proof.
  unfold arc_action_pattern, arc_action_name. intros H.
  destruct (strip_last ")" action) as [body|] eqn:E; [|discriminate].
  simpl in H. apply after_first_Some in H as [d ->].
  apply strip_last_Some in E. exists d. subst action.
  now rewrite !append_assoc.
Qed.

Lemma arc_action_pattern_matches (direction label : string) :
  is_Some (arc_action_pattern (arc_action_name direction label)).
Proof.
  unfold arc_action_pattern, arc_action_name.
  replace (direction +:+ "-ARC(" +:+ label +:+ ")")
    with ((direction +:+ "-ARC(" +:+ label) +:+ ")")
    by now rewrite !append_assoc.
  rewrite strip_last_append. simpl. apply after_first_append.
Qed.

(** ** Evaluating member functions *)

Ltac method_unfold :=
  unfold mbind, method_bind, mret, method_ret, this, assign, undefined in *.

(** [GetWord] on any object: the word's id, or else the id of [UNK]; it is
    undefined exactly when neither is in the table. *)
Lemma GetWord_eval (UNK word : string) (V : CorpusVocabulary) :
  GetWord UNK word V =
  match words_to_int V !! word with
  | Some id => Some (id, V)
  | None => match words_to_int V !! UNK with
            | Some id => Some (id, V)
            | None => None
            end
  end.
Proof.
  unfold GetWord. method_unfold.
  destruct (words_to_int V !! word); [reflexivity|].
  destruct (words_to_int V !! UNK); reflexivity.
Qed.

(** The default constructor reserves ids 0 and 1. *)
Lemma CorpusVocabulary_new_reserved (BAD0 UNK : string) :
  BAD0 <> UNK -> reserved BAD0 UNK (CorpusVocabulary_new BAD0 UNK).
Proof.
  intros Hne. unfold reserved, CorpusVocabulary_new, AddEntry. simpl.
  rewrite lookup_empty, lookup_insert_ne by congruence.
  rewrite lookup_empty. simpl. split.
  - rewrite lookup_insert_ne by congruence. now rewrite lookup_insert_eq.
  - now rewrite lookup_insert_eq.
Qed.

(** C7. [GetLabelForAction] depends on the action string alone (it takes no
    vocabulary).  Whatever the pattern, it returns the captured group when the
    search succeeds and ["NONE"] otherwise.  With the arc-action pattern:
    every name of the shape [direction-ARC(label)] yields a label of such a
    reading of the name, for the directions LEFT and RIGHT that label is
    [label] itself, and a name that is not of that shape yields ["NONE"].
    In particular ["LEFT-ARC(nsubj)"] yields ["nsubj"] and ["SHIFT"] yields
    ["NONE"]. *)
Theorem GetLabelForAction_spec :
  (forall (regex : string -> option string) (action : string),
      GetLabelForAction regex action = default "NONE"%string (regex action))
  /\ (forall direction label : string,
         exists direction',
           arc_action_name direction label
           = arc_action_name direction' (derive_arc_label (arc_action_name direction label)))
  /\ (forall label : string,
         derive_arc_label (arc_action_name "LEFT" label) = label
         /\ derive_arc_label (arc_action_name "RIGHT" label) = label)
  /\ (forall action : string,
         (forall direction label, action <> arc_action_name direction label) ->
         derive_arc_label action = "NONE"%string)
  /\ derive_arc_label "LEFT-ARC(nsubj)" = "nsubj"%string
  /\ derive_arc_label "SHIFT" = "NONE"%string.
Proof.
  split; [|split; [|split; [|split; [|split]]]].
  - intros regex action. unfold GetLabelForAction.
    destruct (regex action); reflexivity.
  - intros direction label. unfold derive_arc_label, GetLabelForAction.
    destruct (arc_action_pattern_matches direction label) as [l Hl].
    rewrite Hl. apply arc_action_pattern_Some in Hl. exact Hl.
  - intros label. unfold derive_arc_label, GetLabelForAction, arc_action_pattern.
    split.
    + replace (arc_action_name "LEFT" label)
        with (("LEFT-ARC(" +:+ label) +:+ ")") by reflexivity.
      rewrite strip_last_append. reflexivity.
    + replace (arc_action_name "RIGHT" label)
        with (("RIGHT-ARC(" +:+ label) +:+ ")") by reflexivity.
      rewrite strip_last_append. reflexivity.
  - intros action Hshape. unfold derive_arc_label, GetLabelForAction.
    destruct (arc_action_pattern action) as [l|] eqn:E; [|reflexivity].
    apply arc_action_pattern_Some in E as [d Hd]. now destruct (Hshape d l).
  - reflexivity.
  - reflexivity.
Qed.

Lemma GetLabelForAction_spec_witness :
  (forall direction label, "SHIFT"%string <> arc_action_name direction label)
  /\ derive_arc_label "SHIFT" = "NONE"%string.
Proof.
  assert (forall direction label, "SHIFT"%string <> arc_action_name direction label) as H.
  { intros direction label Heq.
    pose proof (arc_action_pattern_matches direction label) as [l Hl].
    rewrite <- Heq in Hl. vm_compute in Hl. discriminate. }
  split; [exact H|].
  exact (proj1 (proj2 (proj2 (proj2 GetLabelForAction_spec))) "SHIFT"%string H).
Defined.

(** C8. [GetPOS] is a plain lookup: on a tag of the POS table it returns the
    tag's id, on any other tag it returns the sentinel [(unsigned)-1]; it is
    defined on every object and leaves the object as it was (no insertion). *)
Theorem GetPOS_spec (V : CorpusVocabulary) (tag : string) :
  GetPOS tag V = Some (default 4294967295 (pos_to_int V !! tag), V).
Proof.
  unfold GetPOS. method_unfold. destruct (pos_to_int V !! tag); reflexivity.
Qed.

(** C10. The copy constructor copies the word, POS and character tables in
    both directions and the training flags, and leaves the copy's actions
    and arc labels empty whatever the source holds.  The source is read
    through a const reference: the copy is a function of it. *)
Theorem CorpusVocabulary_copy_spec (other : CorpusVocabulary) :
  let copy := CorpusVocabulary_copy other in
  words_to_int copy = words_to_int other
  /\ int_to_words copy = int_to_words other
  /\ int_to_training_word copy = int_to_training_word other
  /\ pos_to_int copy = pos_to_int other
  /\ int_to_pos copy = int_to_pos other
  /\ chars_to_int copy = chars_to_int other
  /\ int_to_chars copy = int_to_chars other
  /\ actions copy = []
  /\ actions_to_arc_labels copy = [].
Proof. repeat split. Qed.

(** ** Sentences: the ROOT token *)

Lemma ROOT_TOKEN_ID_max : Corpus.ROOT_TOKEN_ID = Unsigned.modulus - 1.
Proof. reflexivity. Qed.

(** In an ascending run of [unsigned] keys, the entry of the largest
    [unsigned] value can only be the final one. *)
Lemma ascending_find_max {T : Type} (l : list (Z * T)) (lo top : Z) (v : T) :
  top = Unsigned.modulus - 1 ->
  TokenMap.ascending lo l = true ->
  TokenMap.find_in top l = Some v ->
  exists real, l = real ++ [(top, v)] /\ Forall (fun e => e.1 < top) real.
Proof.
  intros Htop. revert lo.
  induction l as [|[k x] rest IH]; intros lo Hasc Hfind; simpl in *.
  - discriminate.
  - apply andb_prop in Hasc as [Hk Hrest]. apply andb_prop in Hk as [Hlo Hhi].
    apply Z.ltb_lt in Hlo, Hhi.
    destruct (top =? k) eqn:E.
    + apply Z.eqb_eq in E. injection Hfind as ->. exists []. split; [|constructor].
      destruct rest as [|[k' x'] rest']; [now rewrite E|].
      simpl in Hrest. apply andb_prop in Hrest as [Hk' _].
      apply andb_prop in Hk' as [H1 H2]. apply Z.ltb_lt in H1, H2. lia.
    + apply Z.eqb_neq in E. destruct (IH k Hrest Hfind) as (real & -> & Hreal).
      exists ((k, x) :: real). split; [reflexivity|].
      constructor; [simpl; lia|exact Hreal].
Qed.

Lemma TokenMap_root_last {T : Type} (m : TokenMap.t T) (v : T) :
  TokenMap.find Corpus.ROOT_TOKEN_ID m = Some v ->
  exists real,
    TokenMap.entries m = real ++ [(Corpus.ROOT_TOKEN_ID, v)]
    /\ Forall (fun e => e.1 < Corpus.ROOT_TOKEN_ID) real.
Proof.
  unfold TokenMap.find.
  apply ascending_find_max with (lo := -1);
    [apply ROOT_TOKEN_ID_max|apply TokenMap.entries_ok].
Qed.

(** C6. In each token-index map of a sentence that stores the ROOT token at
    [ROOT_TOKEN_ID], ascending iteration visits the real tokens (all at
    smaller indices, however many there are) and then the ROOT token, which
    comes last. *)
Theorem ROOT_token_iterated_last (s : Sentence) :
  (forall root_word,
      TokenMap.find Corpus.ROOT_TOKEN_ID (words s) = Some root_word ->
      exists real,
        TokenMap.entries (words s) = real ++ [(Corpus.ROOT_TOKEN_ID, root_word)]
        /\ Forall (fun e => e.1 < Corpus.ROOT_TOKEN_ID) real)
  /\ (forall root_pos,
         TokenMap.find Corpus.ROOT_TOKEN_ID (poses s) = Some root_pos ->
         exists real,
           TokenMap.entries (poses s) = real ++ [(Corpus.ROOT_TOKEN_ID, root_pos)]
           /\ Forall (fun e => e.1 < Corpus.ROOT_TOKEN_ID) real)
  /\ (forall root_form,
         TokenMap.find Corpus.ROOT_TOKEN_ID (unk_surface_forms s) = Some root_form ->
         exists real,
           TokenMap.entries (unk_surface_forms s)
           = real ++ [(Corpus.ROOT_TOKEN_ID, root_form)]
           /\ Forall (fun e => e.1 < Corpus.ROOT_TOKEN_ID) real).
Proof.
  repeat split; intros v Hv; now apply TokenMap_root_last.
Qed.

Lemma ROOT_token_iterated_last_witness :
  TokenMap.find Corpus.ROOT_TOKEN_ID (words example_sentence) = Some 9
  /\ exists real,
      TokenMap.entries (words example_sentence) = real ++ [(Corpus.ROOT_TOKEN_ID, 9)]
      /\ Forall (fun e => e.1 < Corpus.ROOT_TOKEN_ID) real.
Proof.
  assert (TokenMap.find Corpus.ROOT_TOKEN_ID (words example_sentence) = Some 9) as H
    by reflexivity.
  split; [exact H|].
  exact (proj1 (ROOT_token_iterated_last example_sentence) 9 H).
Defined.

(** ** One table *)

Lemma GetOrAddEntry_known (str : string) (m : gmap string Z) (l : list string) (id : Z) :
  m !! str = Some id -> GetOrAddEntry str m l = (id, m, l).
Proof. unfold GetOrAddEntry. now intros ->. Qed.

Lemma GetOrAddEntry_fresh (str : string) (m : gmap string Z) (l : list string) :
  m !! str = None ->
  GetOrAddEntry str m l
  = (Unsigned.of_size (length l), <[str := Unsigned.of_size (length l)]> m, l ++ [str]).
Proof.
  unfold GetOrAddEntry, AddEntry. intros ->.
  now rewrite Int.unsigned_of_int.
Qed.

(** Whatever the table, the entry is there afterwards under the returned
    id, and no entry that was there has changed. *)
Lemma GetOrAddEntry_lookup (str : string) (m m' : gmap string Z) (l l' : list string) (id : Z) :
  GetOrAddEntry str m l = (id, m', l') ->
  m' !! str = Some id
  /\ (forall w i, m !! w = Some i -> m' !! w = Some i).
Proof.
  destruct (m !! str) as [i|] eqn:E.
  - rewrite (GetOrAddEntry_known _ _ _ _ E). intros [= <- <- <-]. auto.
  - rewrite (GetOrAddEntry_fresh _ _ _ E). intros [= <- <- <-]. split.
    + apply lookup_insert_eq.
    + intros w i Hw. rewrite lookup_insert_ne; [exact Hw|congruence].
Qed.

Lemma table_ok_add (str : string) (m : gmap string Z) (l : list string) :
  table_ok m l -> m !! str = None ->
  table_ok (<[str := Z.of_nat (length l)]> m) (l ++ [str]).
Proof.
  intros [Hbij Hsize] Hfresh. split.
  - intros w i. split.
    + destruct (decide (str = w)) as [<-|Hne].
      * rewrite lookup_insert_eq. intros [= <-]. split; [lia|].
        rewrite Nat2Z.id. apply list_lookup_middle. reflexivity.
      * rewrite lookup_insert_ne by exact Hne. intros Hw.
        apply Hbij in Hw as [Hi Hw]. split; [exact Hi|].
        now apply lookup_app_l_Some.
    + intros [Hi Hw].
      destruct (decide (Z.to_nat i < length l)%nat) as [Hlt|Hge].
      * rewrite lookup_app_l in Hw by exact Hlt.
        assert (m !! w = Some i) as Hm by (apply Hbij; auto).
        rewrite lookup_insert_ne; [exact Hm|congruence].
      * assert (Z.to_nat i = length l) as Hi'.
        { apply lookup_lt_Some in Hw. rewrite length_app in Hw. simpl in Hw. lia. }
        rewrite Hi', list_lookup_middle in Hw by reflexivity.
        injection Hw as <-. rewrite lookup_insert_eq. f_equal. lia.
  - rewrite map_size_insert_None by exact Hfresh.
    rewrite length_app, Hsize. simpl. lia.
Qed.

(** ** The word table *)

Lemma with_training_id (V : CorpusVocabulary) :
  with_training (int_to_training_word V) V = V.
Proof. now destruct V. Qed.

Lemma with_words_id (V : CorpusVocabulary) :
  with_words (words_to_int V) (int_to_words V) V = V.
Proof. now destruct V. Qed.

Lemma GetOrAddWord_eval (word : string) (b : bool) (V : CorpusVocabulary) :
  GetOrAddWord word b V =
  let '(id, m, l) := GetOrAddEntry word (words_to_int V) (int_to_words V) in
  if decide (Unsigned.of_size (size m) > Unsigned.of_size (size (words_to_int V)))
  then Some (id, with_training (int_to_training_word V ++ [b]) (with_words m l V))
  else match int_to_training_word V !! Z.to_nat id with
       | Some old =>
           Some (id, with_training (<[Z.to_nat id := old || b]> (int_to_training_word V))
                       (with_words m l V))
       | None => None
       end.
Proof.
  unfold GetOrAddWord, GetOrAddEntry_words, CountWords. method_unfold.
  destruct (GetOrAddEntry word (words_to_int V) (int_to_words V)) as [[id m] l].
  simpl. destruct (decide _); [reflexivity|].
  change (int_to_training_word (with_words m l V)) with (int_to_training_word V).
  destruct (int_to_training_word V !! Z.to_nat id); reflexivity.
Qed.

(** A word of the table: its flag is or-ed with the argument, and nothing
    else changes. *)
Lemma GetOrAddWord_known (word : string) (b : bool) (V : CorpusVocabulary) (id : Z) (old : bool) :
  words_to_int V !! word = Some id ->
  int_to_training_word V !! Z.to_nat id = Some old ->
  GetOrAddWord word b V
  = Some (id, with_training (<[Z.to_nat id := old || b]> (int_to_training_word V)) V).
Proof.
  intros Hw Hf. rewrite GetOrAddWord_eval, (GetOrAddEntry_known _ _ _ _ Hw).
  rewrite decide_False by lia. now rewrite Hf, with_words_id.
Qed.

(** A new word of a well-formed table below the [unsigned] limit: it gets
    the next id and its flag is appended. *)
Lemma GetOrAddWord_fresh (word : string) (b : bool) (V : CorpusVocabulary) :
  words_ok V ->
  Z.of_nat (length (int_to_words V)) + 1 < Unsigned.modulus ->
  words_to_int V !! word = None ->
  GetOrAddWord word b V
  = Some (Z.of_nat (length (int_to_words V)),
          with_training (int_to_training_word V ++ [b])
            (with_words (<[word := Z.of_nat (length (int_to_words V))]> (words_to_int V))
                        (int_to_words V ++ [word]) V)).
Proof.
  intros [[Hbij Hsize] Hflags] Hlim Hfresh.
  rewrite GetOrAddWord_eval, (GetOrAddEntry_fresh _ _ _ Hfresh).
  rewrite map_size_insert_None by exact Hfresh. rewrite Hsize.
  rewrite !Unsigned.of_size_small by lia.
  rewrite decide_True by lia. reflexivity.
Qed.

Lemma GetOrAddWord_flags_monotone (word : string) (b : bool) (V V' : CorpusVocabulary) (id : Z) (i : nat) :
  GetOrAddWord word b V = Some (id, V') ->
  int_to_training_word V !! i = Some true ->
  int_to_training_word V' !! i = Some true.
Proof.
  rewrite GetOrAddWord_eval.
  destruct (GetOrAddEntry word (words_to_int V) (int_to_words V)) as [[id0 m] l].
  destruct (decide _).
  - intros [= <- <-] Hi. simpl. now apply lookup_app_l_Some.
  - destruct (int_to_training_word V !! Z.to_nat id0) as [old|] eqn:E; [|discriminate].
    intros [= <- <-] Hi. simpl.
    destruct (decide (Z.to_nat id0 = i)) as [<-|Hne].
    + rewrite list_lookup_insert_eq by (eapply lookup_lt_Some; eauto).
      rewrite E in Hi. injection Hi as ->. reflexivity.
    + now rewrite list_lookup_insert_ne.
Qed.

Lemma GetOrAddWord_lookup (word : string) (b : bool) (V V' : CorpusVocabulary) (id : Z) :
  GetOrAddWord word b V = Some (id, V') ->
  words_to_int V' !! word = Some id
  /\ (forall w i, words_to_int V !! w = Some i -> words_to_int V' !! w = Some i).
Proof.
  rewrite GetOrAddWord_eval.
  destruct (GetOrAddEntry word (words_to_int V) (int_to_words V)) as [[id0 m] l] eqn:E.
  apply GetOrAddEntry_lookup in E.
  destruct (decide _).
  - intros [= <- <-]. exact E.
  - destruct (int_to_training_word V !! Z.to_nat id0); [|discriminate].
    intros [= <- <-]. exact E.
Qed.

(** The reserved entries stay where they are. *)
Lemma GetOrAddWord_reserved (BAD0 UNK word : string) (b : bool) (V V' : CorpusVocabulary) (id : Z) :
  GetOrAddWord word b V = Some (id, V') ->
  reserved BAD0 UNK V -> reserved BAD0 UNK V'.
Proof.
  intros E [H0 H1]. pose proof (proj2 (GetOrAddWord_lookup _ _ _ _ _ E)) as Hkeep.
  split; now apply Hkeep.
Qed.

Lemma CorpusVocabulary_copy_reserved (BAD0 UNK : string) (V : CorpusVocabulary) :
  reserved BAD0 UNK V -> reserved BAD0 UNK (CorpusVocabulary_copy V).
Proof. intros H. exact H. Qed.

(** On a well-formed word table below the [unsigned] limit the call is
    defined and keeps the table well-formed; it adds at most one word. *)
Lemma GetOrAddWord_ok (word : string) (b : bool) (V : CorpusVocabulary) :
  words_ok V ->
  Z.of_nat (length (int_to_words V)) + 1 < Unsigned.modulus ->
  exists id V',
    GetOrAddWord word b V = Some (id, V')
    /\ words_ok V'
    /\ (length (int_to_words V') <= S (length (int_to_words V)))%nat.
Proof.
  intros Hok Hlim. destruct (words_to_int V !! word) as [id|] eqn:E.
  - destruct Hok as [[Hbij Hsize] Hflags].
    pose proof (proj1 (Hbij _ _) E) as [Hid Hl].
    destruct (int_to_training_word V !! Z.to_nat id) as [old|] eqn:Ef.
    + eexists _, _. split; [exact (GetOrAddWord_known _ b _ _ _ E Ef)|].
      split; [|simpl; lia].
      split; [split; assumption|]. simpl. now rewrite length_insert.
    + apply lookup_ge_None in Ef. apply lookup_lt_Some in Hl. lia.
  - eexists _, _. split; [exact (GetOrAddWord_fresh _ b _ Hok Hlim E)|].
    destruct Hok as [Htab Hflags]. split; [|simpl; rewrite length_app; simpl; lia].
    split; simpl.
    + now apply table_ok_add.
    + rewrite !length_app, Hflags. reflexivity.
Qed.

Lemma table_ok_empty : table_ok ∅ [].
Proof.
  split; [|reflexivity]. intros w i. rewrite lookup_empty. split.
  - discriminate.
  - intros [_ H]. now rewrite lookup_nil in H.
Qed.

Lemma CorpusVocabulary_new_words (BAD0 UNK : string) :
  BAD0 <> UNK ->
  words_to_int (CorpusVocabulary_new BAD0 UNK) = <[UNK := 1]> (<[BAD0 := 0]> ∅)
  /\ int_to_words (CorpusVocabulary_new BAD0 UNK) = [BAD0; UNK]
  /\ int_to_training_word (CorpusVocabulary_new BAD0 UNK) = [true; true].
Proof.
  intros Hne. unfold CorpusVocabulary_new, AddEntry. simpl.
  rewrite lookup_empty, lookup_insert_ne by congruence.
  rewrite lookup_empty. simpl. auto.
Qed.

(** The default constructor builds a well-formed word table. *)
Lemma CorpusVocabulary_new_words_ok (BAD0 UNK : string) :
  BAD0 <> UNK -> words_ok (CorpusVocabulary_new BAD0 UNK).
Proof.
  intros Hne. destruct (CorpusVocabulary_new_words BAD0 UNK Hne) as (Hm & Hl & Hf).
  unfold words_ok. rewrite Hm, Hl, Hf. split; [|reflexivity].
  apply (table_ok_add UNK (<[BAD0 := 0]> ∅) [BAD0]).
  - apply (table_ok_add BAD0 ∅ []); [apply table_ok_empty|apply lookup_empty].
  - rewrite lookup_insert_ne by congruence. apply lookup_empty.
Qed.

(** ** Sequences of [GetOrAddWord] calls *)

Lemma GetOrAddWords_cons (word : string) (b : bool) (rest : list (string * bool)) (V : CorpusVocabulary) :
  GetOrAddWords ((word, b) :: rest) V =
  match GetOrAddWord word b V with
  | Some (id, V1) =>
      match GetOrAddWords rest V1 with
      | Some (ids, V2) => Some (id :: ids, V2)
      | None => None
      end
  | None => None
  end.
Proof.
  simpl. method_unfold. destruct (GetOrAddWord word b V) as [[id V1]|]; [|reflexivity].
  destruct (GetOrAddWords rest V1) as [[ids V2]|]; reflexivity.
Qed.

Lemma GetOrAddWords_flags_monotone (calls : list (string * bool)) (V V' : CorpusVocabulary) (ids : list Z) (i : nat) :
  GetOrAddWords calls V = Some (ids, V') ->
  int_to_training_word V !! i = Some true ->
  int_to_training_word V' !! i = Some true.
Proof.
  revert V ids. induction calls as [|[word b] rest IH]; intros V ids.
  - intros [= <- <-]. auto.
  - rewrite GetOrAddWords_cons.
    destruct (GetOrAddWord word b V) as [[id V1]|] eqn:E1; [|discriminate].
    destruct (GetOrAddWords rest V1) as [[ids' V2]|] eqn:E2; [|discriminate].
    intros [= <- <-] Hi. eapply IH; [exact E2|].
    eapply GetOrAddWord_flags_monotone; eauto.
Qed.

Lemma GetOrAddWords_lookup (calls : list (string * bool)) (V V' : CorpusVocabulary) (ids : list Z) :
  GetOrAddWords calls V = Some (ids, V') ->
  forall w i, words_to_int V !! w = Some i -> words_to_int V' !! w = Some i.
Proof.
  revert V ids. induction calls as [|[word b] rest IH]; intros V ids.
  - intros [= <- <-]. auto.
  - rewrite GetOrAddWords_cons.
    destruct (GetOrAddWord word b V) as [[id V1]|] eqn:E1; [|discriminate].
    destruct (GetOrAddWords rest V1) as [[ids' V2]|] eqn:E2; [|discriminate].
    intros [= <- <-] w i Hw. eapply IH; [exact E2|].
    now apply (proj2 (GetOrAddWord_lookup _ _ _ _ _ E1)).
Qed.

(** Every call on a word that is in the table returns the id it has. *)
Lemma GetOrAddWords_ids (calls : list (string * bool)) (V V' : CorpusVocabulary) (ids : list Z) (w : string) (id : Z) :
  words_to_int V !! w = Some id ->
  GetOrAddWords calls V = Some (ids, V') ->
  forall k b, calls !! k = Some (w, b) -> ids !! k = Some id.
Proof.
  revert V ids. induction calls as [|[word b] rest IH]; intros V ids Hw.
  - intros _ k b' Hk. now rewrite lookup_nil in Hk.
  - rewrite GetOrAddWords_cons.
    destruct (GetOrAddWord word b V) as [[id1 V1]|] eqn:E1; [|discriminate].
    destruct (GetOrAddWords rest V1) as [[ids' V2]|] eqn:E2; [|discriminate].
    intros [= <- <-] k b' Hk.
    pose proof (GetOrAddWord_lookup _ _ _ _ _ E1) as [Hword Hkeep].
    destruct k as [|k]; simpl in *.
    + injection Hk as -> ->. apply Hkeep in Hw. congruence.
    + eapply IH; [apply Hkeep, Hw|exact E2|exact Hk].
Qed.

Lemma GetOrAddWords_ok (calls : list (string * bool)) (V : CorpusVocabulary) :
  words_ok V ->
  Z.of_nat (length (int_to_words V)) + Z.of_nat (length calls) < Unsigned.modulus ->
  exists ids V',
    GetOrAddWords calls V = Some (ids, V')
    /\ words_ok V'
    /\ (length (int_to_words V') <= length (int_to_words V) + length calls)%nat.
Proof.
  revert V. induction calls as [|[word b] rest IH]; intros V Hok Hlim.
  - exists [], V. split; [reflexivity|]. split; [exact Hok|lia].
  - simpl length in Hlim.
    destruct (GetOrAddWord_ok word b V Hok) as (id & V1 & E1 & Hok1 & Hlen1); [lia|].
    destruct (IH V1 Hok1) as (ids & V2 & E2 & Hok2 & Hlen2); [lia|].
    exists (id :: ids), V2. rewrite GetOrAddWords_cons, E1, E2.
    split; [reflexivity|]. split; [exact Hok2|]. simpl length. lia.
Qed.

(** C4. The training flag of a word id only ever turns true.  Whatever the
    object, a flag that is true stays true through every sequence of
    [GetOrAddWord] calls, on any words and with either argument; on a
    well-formed word table below the [unsigned] limit every such sequence is
    defined.  On a word of the table the call with [true] sets the flag to
    true and repeating it changes nothing; the call with [false] changes
    nothing. *)
Theorem training_flag_monotone :
  (forall (V V' : CorpusVocabulary) (calls : list (string * bool)) (ids : list Z) (i : nat),
      GetOrAddWords calls V = Some (ids, V') ->
      int_to_training_word V !! i = Some true ->
      int_to_training_word V' !! i = Some true)
  /\ (forall (V : CorpusVocabulary) (calls : list (string * bool)),
         words_ok V ->
         Z.of_nat (length (int_to_words V)) + Z.of_nat (length calls) < Unsigned.modulus ->
         is_Some (GetOrAddWords calls V))
  /\ (forall (V : CorpusVocabulary) (word : string) (id : Z) (old : bool),
         words_to_int V !! word = Some id ->
         int_to_training_word V !! Z.to_nat id = Some old ->
         let V' := with_training (<[Z.to_nat id := true]> (int_to_training_word V)) V in
         GetOrAddWord word true V = Some (id, V')
         /\ GetOrAddWord word true V' = Some (id, V')
         /\ GetOrAddWord word false V = Some (id, V)).
Proof.
  split; [|split].
  - intros V V' calls ids i. apply GetOrAddWords_flags_monotone.
  - intros V calls Hok Hlim.
    destruct (GetOrAddWords_ok calls V Hok Hlim) as (ids & V' & E & _). eauto.
  - intros V word id old Hw Hf V'.
    assert (Z.to_nat id < length (int_to_training_word V))%nat as Hlt
      by (eapply lookup_lt_Some; eauto).
    split; [|split].
    + rewrite (GetOrAddWord_known _ _ _ _ _ Hw Hf). now rewrite orb_true_r.
    + assert (int_to_training_word V' !! Z.to_nat id = Some true) as Hf'
        by (simpl; now apply list_lookup_insert_eq).
      rewrite (GetOrAddWord_known word true V' id true Hw Hf').
      simpl. rewrite list_insert_insert_eq. reflexivity.
    + rewrite (GetOrAddWord_known _ _ _ _ _ Hw Hf). rewrite orb_false_r.
      rewrite list_insert_id by exact Hf. now rewrite with_training_id.
Qed.

Lemma training_flag_monotone_witness :
  let r := default ([], example_vocabulary) (GetOrAddWords example_calls example_vocabulary) in
  GetOrAddWords example_calls example_vocabulary = Some r
  /\ int_to_training_word example_vocabulary !! 1%nat = Some true
  /\ int_to_training_word r.2 !! 1%nat = Some true
  /\ words_ok example_vocabulary
  /\ Z.of_nat (length (int_to_words example_vocabulary)) + Z.of_nat (length example_calls)
     < Unsigned.modulus
  /\ words_to_int example_vocabulary !! "<UNK>"%string = Some 1
  /\ GetOrAddWord "<UNK>" false example_vocabulary = Some (1, example_vocabulary).
Proof.
  intros r.
  assert (GetOrAddWords example_calls example_vocabulary = Some (r.1, r.2)) as H1
    by (vm_compute; reflexivity).
  assert (int_to_training_word example_vocabulary !! 1%nat = Some true) as H2
    by reflexivity.
  assert (words_to_int example_vocabulary !! "<UNK>"%string = Some 1) as H3
    by (vm_compute; reflexivity).
  split; [vm_compute; reflexivity|]. split; [exact H2|].
  split; [exact (proj1 training_flag_monotone _ _ _ _ 1%nat H1 H2)|].
  split; [exact (CorpusVocabulary_new_words_ok "<BAD0>" "<UNK>" ltac:(discriminate))|].
  split; [reflexivity|]. split; [exact H3|].
  exact (proj2 (proj2 (proj2 (proj2 training_flag_monotone)
                         example_vocabulary "<UNK>"%string 1 true H3 H2))).
Defined.

(** C9. After [GetOrAddWord] has returned an id for a word, on a well-formed
    word table below the [unsigned] limit: through every later sequence of
    [GetOrAddWord] calls, each call on that word returns the same id, and
    afterwards [GetWord] on it returns that id and another [GetOrAddWord] on
    it, with either argument, returns that id and adds no entry to the word
    table. *)
Theorem GetOrAddWord_idempotent
    (V : CorpusVocabulary) (w : string) (b : bool) (calls : list (string * bool)) :
  words_ok V ->
  Z.of_nat (length (int_to_words V)) + 1 + Z.of_nat (length calls) < Unsigned.modulus ->
  exists id V1 ids V2,
    GetOrAddWord w b V = Some (id, V1)
    /\ GetOrAddWords calls V1 = Some (ids, V2)
    /\ (forall k b', calls !! k = Some (w, b') -> ids !! k = Some id)
    /\ (forall UNK, GetWord UNK w V2 = Some (id, V2))
    /\ (forall b', exists V3,
           GetOrAddWord w b' V2 = Some (id, V3)
           /\ words_to_int V3 = words_to_int V2
           /\ int_to_words V3 = int_to_words V2
           /\ length (int_to_training_word V3) = length (int_to_training_word V2)).
Proof.
  intros Hok Hlim.
  destruct (GetOrAddWord_ok w b V Hok) as (id & V1 & E1 & Hok1 & Hlen1); [lia|].
  destruct (GetOrAddWords_ok calls V1 Hok1) as (ids & V2 & E2 & Hok2 & Hlen2); [lia|].
  exists id, V1, ids, V2.
  pose proof (proj1 (GetOrAddWord_lookup _ _ _ _ _ E1)) as Hw1.
  pose proof (GetOrAddWords_lookup _ _ _ _ E2 _ _ Hw1) as Hw2.
  split; [exact E1|]. split; [exact E2|]. split; [|split].
  - exact (GetOrAddWords_ids _ _ _ _ _ _ Hw1 E2).
  - intros UNK. now rewrite GetWord_eval, Hw2.
  - intros b'. destruct Hok2 as [[Hbij Hsize] Hflags].
    pose proof (proj1 (Hbij _ _) Hw2) as [Hid Hl].
    destruct (int_to_training_word V2 !! Z.to_nat id) as [old|] eqn:Ef.
    + eexists. split; [exact (GetOrAddWord_known _ b' _ _ _ Hw2 Ef)|].
      simpl. now rewrite length_insert.
    + apply lookup_ge_None in Ef. apply lookup_lt_Some in Hl. lia.
Qed.

Lemma GetOrAddWord_idempotent_witness :
  words_ok example_vocabulary
  /\ Z.of_nat (length (int_to_words example_vocabulary)) + 1
     + Z.of_nat (length example_calls) < Unsigned.modulus
  /\ exists id V1 ids V2,
      GetOrAddWord "dog" true example_vocabulary = Some (id, V1)
      /\ GetOrAddWords example_calls V1 = Some (ids, V2)
      /\ GetWord "<UNK>" "dog" V2 = Some (id, V2)
      /\ exists V3, GetOrAddWord "dog" false V2 = Some (id, V3)
                    /\ int_to_words V3 = int_to_words V2.
Proof.
  assert (words_ok example_vocabulary) as H1
    by exact (CorpusVocabulary_new_words_ok "<BAD0>" "<UNK>" ltac:(discriminate)).
  assert (Z.of_nat (length (int_to_words example_vocabulary)) + 1
          + Z.of_nat (length example_calls) < Unsigned.modulus) as H2 by reflexivity.
  split; [exact H1|]. split; [exact H2|].
  destruct (GetOrAddWord_idempotent example_vocabulary "dog" true example_calls H1 H2)
    as (id & V1 & ids & V2 & E1 & E2 & _ & Hget & Hadd).
  exists id, V1, ids, V2. split; [exact E1|]. split; [exact E2|].
  split; [apply Hget|].
  destruct (Hadd false) as (V3 & E3 & _ & Hl & _). exists V3. auto.
Defined.

(** ** Serialization *)

Lemma SerializeLists_out (items : list item) (version : Z) (V : CorpusVocabulary) :
  SerializeLists (OArchive items) version V
  = Some (OArchive (items ++ persisted V), V).
Proof.
  unfold SerializeLists, persisted. destruct V. simpl.
  now rewrite <- !app_assoc.
Qed.

Lemma save_eval (items : list item) (version : Z) (V : CorpusVocabulary) :
  save (OArchive items) version V = Some (OArchive (items ++ persisted V)).
Proof. unfold save. now rewrite SerializeLists_out. Qed.

Lemma SerializeLists_in (w p c a : list string) (t : list bool) (rest : list item)
    (version : Z) (V : CorpusVocabulary) :
  SerializeLists (IArchive (StrVec w :: StrVec p :: StrVec c :: BoolVec t :: StrVec a :: rest))
                 version V
  = Some (IArchive rest,
          mkCorpusVocabulary (words_to_int V) w t (pos_to_int V) p (chars_to_int V) c
                             a (actions_to_arc_labels V)).
Proof. reflexivity. Qed.

Lemma push_back_loop {A B : Type} (f : A -> B) (l : list A) (init : list B) :
  foldl (fun acc x => acc ++ [f x]) init l = init ++ map f l.
Proof.
  revert init. induction l as [|x l IH]; intros init; simpl.
  - now rewrite app_nil_r.
  - rewrite IH. now rewrite <- app_assoc.
Qed.

Lemma load_eval (regex : string -> option string) (w p c a : list string)
    (t : list bool) (rest : list item) (version : Z) (T : CorpusVocabulary) :
  load regex (IArchive (StrVec w :: StrVec p :: StrVec c :: BoolVec t :: StrVec a :: rest))
       version T
  = Some ((IArchive rest, shrinkage (length (int_to_words T)) (length w)),
          loaded regex w p c a t T).
Proof.
  unfold load. method_unfold. simpl. unfold loaded, shrinkage.
  rewrite push_back_loop. reflexivity.
Qed.

(** ** Rebuilding a reverse mapping *)

Lemma reindex_rebuilds (l : list string) (i : nat) (m : gmap string Z) (w : string) :
  (w ∈ l -> exists k, l !! k = Some w
                      /\ reindex i l m !! w = Some (Unsigned.of_size (i + k)))
  /\ (w ∉ l -> reindex i l m !! w = m !! w).
Proof.
  revert i m. induction l as [|s rest IH]; intros i m; simpl.
  - split; [|reflexivity]. intros H. now apply elem_of_nil in H.
  - destruct (IH (S i) (<[s := Unsigned.of_size i]> m)) as [IHin IHout].
    destruct (decide (w ∈ rest)) as [Hin|Hout].
    + split; [|intros H; exfalso; apply H; now right].
      intros _. destruct (IHin Hin) as (k & Hk & Hlook).
      exists (S k). split; [exact Hk|]. rewrite Hlook. do 2 f_equal. lia.
    + rewrite (IHout Hout). split.
      * intros H. apply elem_of_cons in H as [->|H]; [|contradiction].
        exists 0%nat. split; [reflexivity|].
        rewrite lookup_insert_eq. do 2 f_equal. lia.
      * intros H. apply lookup_insert_ne. intros ->. apply H. now left.
Qed.

Lemma reindex_rebuilt (l : list string) : rebuilt (reindex 0 l ∅) l.
Proof.
  intros w. destruct (reindex_rebuilds l 0 ∅ w) as [Hin Hout]. split.
  - intros H. destruct (Hin H) as (k & Hk & Hlook). exists k. auto.
  - intros H. rewrite (Hout H). apply lookup_empty.
Qed.

(** A well-formed table below the [unsigned] limit is rebuilt as it was. *)
Lemma reindex_table_ok (m : gmap string Z) (l : list string) :
  table_ok m l -> Z.of_nat (length l) < Unsigned.modulus ->
  reindex 0 l ∅ = m.
Proof.
  intros [Hbij _] Hlim. apply map_eq. intros w.
  destruct (reindex_rebuilt l w) as [Hin Hout].
  destruct (decide (w ∈ l)) as [H|H].
  - destruct (Hin H) as (k & Hk & ->). symmetry. apply Hbij.
    pose proof (lookup_lt_Some _ _ _ Hk) as Hlt.
    rewrite Unsigned.of_size_small by lia. split; [lia|].
    now rewrite Nat2Z.id.
  - rewrite (Hout H). symmetry. apply eq_None_not_Some. intros [i Hi].
    apply Hbij in Hi as [_ Hi]. apply H. eapply list_elem_of_lookup_2, Hi.
Qed.

(** The arc labels after a [load]: the ones held before, followed by the
    labels derived from the loaded actions. *)
Lemma load_arc_labels (regex : string -> option string) (w p c a : list string)
    (t : list bool) (T : CorpusVocabulary) :
  actions_to_arc_labels (loaded regex w p c a t T)
  = actions_to_arc_labels T ++ map (GetLabelForAction regex) (actions (loaded regex w p c a t T)).
Proof. reflexivity. Qed.

(** Loading what a well-formed vocabulary saved gives back its reverse
    mappings. *)
Lemma load_save_reverse_maps (regex : string -> option string) (V T : CorpusVocabulary) :
  table_ok (words_to_int V) (int_to_words V) ->
  table_ok (pos_to_int V) (int_to_pos V) ->
  table_ok (chars_to_int V) (int_to_chars V) ->
  Z.of_nat (length (int_to_words V)) < Unsigned.modulus ->
  Z.of_nat (length (int_to_pos V)) < Unsigned.modulus ->
  Z.of_nat (length (int_to_chars V)) < Unsigned.modulus ->
  let V' := loaded regex (int_to_words V) (int_to_pos V) (int_to_chars V) (actions V)
                   (int_to_training_word V) T in
  words_to_int V' = words_to_int V
  /\ pos_to_int V' = pos_to_int V
  /\ chars_to_int V' = chars_to_int V.
Proof.
  intros Hw Hp Hc Lw Lp Lc. simpl.
  repeat split; now apply reindex_table_ok.
Qed.

(** At the [unsigned] limit a new word makes [GetOrAddWord] index the flags
    out of range. *)
Lemma GetOrAddWord_full (word : string) (b : bool) (V : CorpusVocabulary) :
  words_ok V ->
  Z.of_nat (length (int_to_words V)) + 1 = Unsigned.modulus ->
  words_to_int V !! word = None ->
  GetOrAddWord word b V = None.
Proof.
  intros [[Hbij Hsize] Hflags] Hlim Hfresh.
  rewrite GetOrAddWord_eval, (GetOrAddEntry_fresh _ _ _ Hfresh).
  rewrite map_size_insert_None by exact Hfresh. rewrite Hsize.
  assert (Unsigned.of_size (S (length (int_to_words V))) = 0) as ->.
  { unfold Unsigned.of_size, Unsigned.wrap. rewrite Nat2Z.inj_succ.
    replace (Z.succ (Z.of_nat (length (int_to_words V)))) with Unsigned.modulus by lia.
    reflexivity. }
  rewrite Unsigned.of_size_small by lia.
  rewrite decide_False by lia.
  rewrite Nat2Z.id, lookup_ge_None_2; [reflexivity|lia].
Qed.

(** A defined call keeps a well-formed word table well-formed and below
    the [unsigned] limit. *)
Lemma GetOrAddWord_preserves (word : string) (b : bool) (V V' : CorpusVocabulary) (id : Z) :
  words_ok V ->
  Z.of_nat (length (int_to_words V)) < Unsigned.modulus ->
  GetOrAddWord word b V = Some (id, V') ->
  words_ok V' /\ Z.of_nat (length (int_to_words V')) < Unsigned.modulus.
Proof.
  intros Hok Hlim E. destruct (words_to_int V !! word) as [i|] eqn:Ew.
  - destruct Hok as [[Hbij Hsize] Hflags].
    pose proof (proj1 (Hbij _ _) Ew) as [Hi Hl].
    destruct (int_to_training_word V !! Z.to_nat i) as [old|] eqn:Ef.
    + rewrite (GetOrAddWord_known _ b _ _ _ Ew Ef) in E. injection E as <- <-.
      split; [|exact Hlim]. split; [split; assumption|].
      simpl. now rewrite length_insert.
    + apply lookup_ge_None in Ef. apply lookup_lt_Some in Hl. lia.
  - destruct (decide (Z.of_nat (length (int_to_words V)) + 1 < Unsigned.modulus)) as [Hl|Hl].
    + rewrite (GetOrAddWord_fresh _ b _ Hok Hl Ew) in E. injection E as <- <-.
      destruct Hok as [Htab Hflags]. simpl. split; [split|].
      * now apply table_ok_add.
      * simpl. rewrite !length_app, Hflags. reflexivity.
      * rewrite length_app. simpl. lia.
    + rewrite GetOrAddWord_full in E; [discriminate|exact Hok|lia|exact Ew].
Qed.

(** Every constructed object has a well-formed word table below the
    [unsigned] limit, with the reserved words at ids 0 and 1. *)
Lemma constructed_words (BAD0 UNK : string) (regex : string -> option string)
    (V : CorpusVocabulary) :
  BAD0 <> UNK ->
  constructed BAD0 UNK regex V ->
  words_ok V
  /\ Z.of_nat (length (int_to_words V)) < Unsigned.modulus
  /\ reserved BAD0 UNK V.
Proof.
  intros Hne H.
  induction H as [|V H IH|V word b id V' H IH E|V T HV IHV HT IHT
                  |V pm pl cm cl a labels H IH].
  - split; [now apply CorpusVocabulary_new_words_ok|].
    split; [|now apply CorpusVocabulary_new_reserved].
    destruct (CorpusVocabulary_new_words BAD0 UNK Hne) as (_ & -> & _). reflexivity.
  - exact IH.
  - destruct IH as (Hok & Hlim & Hres).
    destruct (GetOrAddWord_preserves _ _ _ _ _ Hok Hlim E) as [Hok' Hlim'].
    split; [exact Hok'|]. split; [exact Hlim'|].
    eapply GetOrAddWord_reserved; eauto.
  - destruct IHV as ([Htab Hflags] & Hlim & Hres).
    unfold words_ok, reserved, loaded. simpl.
    rewrite (reindex_table_ok _ _ Htab Hlim). auto.
  - exact IH.
Qed.

(** C3. [GetWord] returns the id mapped to the text when the text is in the
    word table, and the reserved unknown-word id 1 otherwise; it is defined
    and leaves the object as it was.  This holds on every object that holds
    the two reserved words, hence on every object the class constructs. *)
Theorem GetWord_spec (BAD0 UNK : string) (V : CorpusVocabulary) (text : string) :
  (reserved BAD0 UNK V ->
   GetWord UNK text V = Some (default 1 (words_to_int V !! text), V))
  /\ (forall regex : string -> option string,
         BAD0 <> UNK ->
         constructed BAD0 UNK regex V ->
         GetWord UNK text V = Some (default 1 (words_to_int V !! text), V)).
Proof.
  assert (reserved BAD0 UNK V ->
          GetWord UNK text V = Some (default 1 (words_to_int V !! text), V)) as H.
  { intros [_ Hunk]. rewrite GetWord_eval, Hunk.
    destruct (words_to_int V !! text); reflexivity. }
  split; [exact H|].
  intros regex Hne HV. apply H. now apply (constructed_words BAD0 UNK regex).
Qed.

Lemma GetWord_spec_witness :
  reserved "<BAD0>" "<UNK>" example_vocabulary
  /\ "<BAD0>"%string <> "<UNK>"%string
  /\ constructed "<BAD0>" "<UNK>" arc_action_pattern example_vocabulary
  /\ GetWord "<UNK>" "dog" example_vocabulary = Some (1, example_vocabulary).
Proof.
  assert (reserved "<BAD0>" "<UNK>" example_vocabulary) as H1
    by (split; vm_compute; reflexivity).
  assert ("<BAD0>"%string <> "<UNK>"%string) as H2 by discriminate.
  assert (constructed "<BAD0>" "<UNK>" arc_action_pattern example_vocabulary) as H3
    by apply constructed_new.
  split; [exact H1|]. split; [exact H2|]. split; [exact H3|].
  exact (proj2 (GetWord_spec "<BAD0>" "<UNK>" example_vocabulary "dog")
               arc_action_pattern H2 H3).
Defined.

(** C3, counterexample.  [GetWord] is not defined on every object: [load]
    accepts a word list without [UNK], and on the object it leaves [GetWord]
    on a text that is not in the list dereferences [find(UNK)] at [end()]. *)
Lemma GetWord_undefined_after_load :
  load arc_action_pattern
       (IArchive [StrVec ["the"%string]; StrVec []; StrVec []; BoolVec [true]; StrVec []])
       0 example_vocabulary
  = Some ((IArchive [], [LostWords 1]),
          loaded arc_action_pattern ["the"%string] [] [] [] [true] example_vocabulary)
  /\ GetWord "<UNK>" "dog"
       (loaded arc_action_pattern ["the"%string] [] [] [] [true] example_vocabulary)
     = None
  /\ ~ (forall (V : CorpusVocabulary) (text : string),
          exists id, GetWord "<UNK>" text V = Some (id, V)).
Proof.
  assert (GetWord "<UNK>" "dog"
            (loaded arc_action_pattern ["the"%string] [] [] [] [true] example_vocabulary)
          = None) as H by (vm_compute; reflexivity).
  split; [apply load_eval|]. split; [exact H|].
  intros Hall.
  destruct (Hall (loaded arc_action_pattern ["the"%string] [] [] [] [true]
                         example_vocabulary) "dog"%string) as [id Hid].
  rewrite H in Hid. discriminate.
Qed.

(** The derived labels are the whole table after [load] exactly when the
    object held no arc labels before. *)
Lemma loaded_labels_ok (regex : string -> option string) (w p c a : list string)
    (t : list bool) (T : CorpusVocabulary) :
  labels_ok regex (loaded regex w p c a t T) <-> actions_to_arc_labels T = [].
Proof.
  unfold labels_ok. simpl. split.
  - intros H. apply (app_inv_tail (map (GetLabelForAction regex) a)). exact H.
  - intros ->. reflexivity.
Qed.

(** Round trip, where it holds.  Let [save] write [V] to an empty archive.
    [load] from
    that archive (whatever follows it in the stream) is defined, consumes
    exactly the five fields, and leaves a vocabulary whose five persisted
    lists are those of [V] and whose three reverse mappings are rebuilt from
    the loaded lists (they are those of [V] when its tables are well-formed
    and below the [unsigned] limit).  Loaded into a vocabulary without arc
    labels, the arc labels are the ones derived from the loaded actions in
    order, and they equal those of [V] when [V] holds the labels derived from
    its actions. *)
Theorem load_save_round_trip
    (regex : string -> option string) (V T : CorpusVocabulary)
    (version : Z) (rest : list item) :
  exists ar cerr V',
    save (OArchive []) version V = Some ar
    /\ load regex (IArchive (written ar ++ rest)) version T = Some ((IArchive rest, cerr), V')
    /\ int_to_words V' = int_to_words V
    /\ int_to_pos V' = int_to_pos V
    /\ int_to_chars V' = int_to_chars V
    /\ int_to_training_word V' = int_to_training_word V
    /\ actions V' = actions V
    /\ rebuilt (words_to_int V') (int_to_words V')
    /\ rebuilt (pos_to_int V') (int_to_pos V')
    /\ rebuilt (chars_to_int V') (int_to_chars V')
    /\ (table_ok (words_to_int V) (int_to_words V) ->
        Z.of_nat (length (int_to_words V)) < Unsigned.modulus ->
        words_to_int V' = words_to_int V)
    /\ (table_ok (pos_to_int V) (int_to_pos V) ->
        Z.of_nat (length (int_to_pos V)) < Unsigned.modulus ->
        pos_to_int V' = pos_to_int V)
    /\ (table_ok (chars_to_int V) (int_to_chars V) ->
        Z.of_nat (length (int_to_chars V)) < Unsigned.modulus ->
        chars_to_int V' = chars_to_int V)
    /\ (actions_to_arc_labels T = [] ->
        actions_to_arc_labels V' = map (GetLabelForAction regex) (actions V')
        /\ (labels_ok regex V -> actions_to_arc_labels V' = actions_to_arc_labels V)).
Proof.
  eexists _, _, _.
  split; [apply save_eval|]. simpl.
  split; [apply load_eval|]. simpl.
  repeat (split; [reflexivity || apply reindex_rebuilt|]).
  repeat (split; [apply reindex_table_ok|]).
  intros ->. split; [reflexivity|]. intros HV. symmetry. exact HV.
Qed.

Lemma load_save_round_trip_witness :
  labels_ok arc_action_pattern
    (loaded arc_action_pattern ["<BAD0>"; "<UNK>"]%string [] ["<BAD0>"%string]
            ["SHIFT"; "LEFT-ARC(nsubj)"]%string [true; true] example_vocabulary)
  /\ actions_to_arc_labels example_vocabulary = []
  /\ table_ok (words_to_int example_vocabulary) (int_to_words example_vocabulary)
  /\ Z.of_nat (length (int_to_words example_vocabulary)) < Unsigned.modulus
  /\ (exists ar cerr V',
        save (OArchive []) 0
             (loaded arc_action_pattern ["<BAD0>"; "<UNK>"]%string [] ["<BAD0>"%string]
                     ["SHIFT"; "LEFT-ARC(nsubj)"]%string [true; true] example_vocabulary)
        = Some ar
        /\ load arc_action_pattern (IArchive (written ar ++ [])) 0 example_vocabulary
           = Some ((IArchive [], cerr), V')
        /\ actions V' = ["SHIFT"; "LEFT-ARC(nsubj)"]%string
        /\ actions_to_arc_labels V' = ["NONE"; "nsubj"]%string)
  /\ (exists ar cerr V',
        save (OArchive []) 0 example_vocabulary = Some ar
        /\ load arc_action_pattern (IArchive (written ar ++ [])) 0 example_vocabulary
           = Some ((IArchive [], cerr), V')
        /\ words_to_int V' = words_to_int example_vocabulary).
Proof.
  assert (labels_ok arc_action_pattern
            (loaded arc_action_pattern ["<BAD0>"; "<UNK>"]%string [] ["<BAD0>"%string]
                    ["SHIFT"; "LEFT-ARC(nsubj)"]%string [true; true] example_vocabulary))
    as H1 by reflexivity.
  assert (actions_to_arc_labels example_vocabulary = []) as H2 by reflexivity.
  assert (table_ok (words_to_int example_vocabulary) (int_to_words example_vocabulary))
    as H3 by exact (proj1 (CorpusVocabulary_new_words_ok "<BAD0>" "<UNK>" ltac:(discriminate))).
  assert (Z.of_nat (length (int_to_words example_vocabulary)) < Unsigned.modulus)
    as H4 by reflexivity.
  split; [exact H1|]. split; [exact H2|]. split; [exact H3|]. split; [exact H4|].
  split.
  - destruct (load_save_round_trip arc_action_pattern
                (loaded arc_action_pattern ["<BAD0>"; "<UNK>"]%string [] ["<BAD0>"%string]
                        ["SHIFT"; "LEFT-ARC(nsubj)"]%string [true; true] example_vocabulary)
                example_vocabulary 0 [])
      as (ar & cerr & V' & Hs & Hl & _ & _ & _ & _ & Ha & _ & _ & _ & _ & _ & _ & Hlab).
    exists ar, cerr, V'. split; [exact Hs|]. split; [exact Hl|].
    split; [exact Ha|exact (proj2 (Hlab H2) H1)].
  - destruct (load_save_round_trip arc_action_pattern example_vocabulary
                example_vocabulary 0 [])
      as (ar & cerr & V' & Hs & Hl & _ & _ & _ & _ & _ & _ & _ & _ & Hw & _).
    exists ar, cerr, V'. split; [exact Hs|]. split; [exact Hl|exact (Hw H3 H4)].
Defined.

(** C1, evaluated.  The round trip does not give back the arc labels of
    every vocabulary, because [load] appends to the arc labels the object
    holds instead of rebuilding them (the defect shown for C2).  Let [V1] be
    the object after loading an archive of two actions into a new
    vocabulary, and [V2] the object after loading the same archive into
    [V1] again.  Loading [save V2] into a new vocabulary gives back the
    five lists of [V2] but two arc labels where [V2] holds four; and loading
    [save V1] into [V1] itself leaves four arc labels where [V1] held
    two. *)
Theorem load_save_round_trip_arc_labels_differ :
  exists V1 V2 ar2 V2' ar1 V1',
    load arc_action_pattern (IArchive example_archive) 0 example_vocabulary
    = Some ((IArchive [], []), V1)
    /\ load arc_action_pattern (IArchive example_archive) 0 V1
       = Some ((IArchive [], []), V2)
    /\ save (OArchive []) 0 V2 = Some ar2
    /\ load arc_action_pattern (IArchive (written ar2)) 0 example_vocabulary
       = Some ((IArchive [], []), V2')
    /\ persisted V2' = persisted V2
    /\ actions_to_arc_labels V2 = ["NONE"; "nsubj"; "NONE"; "nsubj"]%string
    /\ actions_to_arc_labels V2' = ["NONE"; "nsubj"]%string
    /\ actions_to_arc_labels V2' <> actions_to_arc_labels V2
    /\ save (OArchive []) 0 V1 = Some ar1
    /\ load arc_action_pattern (IArchive (written ar1)) 0 V1
       = Some ((IArchive [], []), V1')
    /\ persisted V1' = persisted V1
    /\ actions_to_arc_labels V1 = ["NONE"; "nsubj"]%string
    /\ actions_to_arc_labels V1' = ["NONE"; "nsubj"; "NONE"; "nsubj"]%string
    /\ actions_to_arc_labels V1' <> actions_to_arc_labels V1.
Proof.
  eexists _, _, _, _, _, _. unfold example_archive.
  split; [apply load_eval|]. split; [apply load_eval|].
  split; [apply save_eval|]. simpl.
  split; [apply load_eval|].
  split; [reflexivity|]. split; [reflexivity|]. split; [reflexivity|].
  split; [discriminate|].
  split; [apply save_eval|]. simpl.
  split; [apply load_eval|].
  split; [reflexivity|]. split; [reflexivity|]. split; [reflexivity|].
  discriminate.
Qed.

(** C2, evaluated.  [load] appends the derived labels to the arc labels the
    object already holds: after loading one archive twice into the same
    object, the two loaded actions face four arc labels. *)
Theorem load_twice_duplicates_arc_labels :
  exists V1 V2,
    load arc_action_pattern (IArchive example_archive) 0 example_vocabulary
    = Some ((IArchive [], []), V1)
    /\ actions V1 = ["SHIFT"; "LEFT-ARC(nsubj)"]%string
    /\ actions_to_arc_labels V1 = ["NONE"; "nsubj"]%string
    /\ load arc_action_pattern (IArchive example_archive) 0 V1
       = Some ((IArchive [], []), V2)
    /\ actions V2 = ["SHIFT"; "LEFT-ARC(nsubj)"]%string
    /\ actions_to_arc_labels V2 = ["NONE"; "nsubj"; "NONE"; "nsubj"]%string
    /\ actions_to_arc_labels V2 <> map derive_arc_label (actions V2).
Proof.
  eexists _, _. unfold example_archive.
  split; [apply load_eval|].
  split; [reflexivity|]. split; [reflexivity|].
  split; [apply load_eval|].
  split; [reflexivity|]. split; [reflexivity|].
  discriminate.
Qed.

(** C5. When the archive holds fewer words than the object held before
    (a count that fits [unsigned]), [load] is defined, writes the warning
    with the number of lost words, and leaves the loaded lists as the active
    vocabulary with their reverse mappings; the object it leaves is the one
    the same archive gives on any object with the same arc labels, whether
    or not that load warns. *)
Theorem load_shrinkage_warning
    (regex : string -> option string) (T : CorpusVocabulary)
    (w p c a : list string) (t : list bool) (rest : list item) (version : Z) :
  Z.of_nat (length (int_to_words T)) < Unsigned.modulus ->
  (length w < length (int_to_words T))%nat ->
  exists V',
    load regex (IArchive (StrVec w :: StrVec p :: StrVec c :: BoolVec t :: StrVec a :: rest))
         version T
    = Some ((IArchive rest,
             [LostWords (Z.of_nat (length (int_to_words T)) - Z.of_nat (length w))]),
            V')
    /\ int_to_words V' = w
    /\ int_to_pos V' = p
    /\ int_to_chars V' = c
    /\ int_to_training_word V' = t
    /\ actions V' = a
    /\ rebuilt (words_to_int V') w
    /\ rebuilt (pos_to_int V') p
    /\ rebuilt (chars_to_int V') c
    /\ (forall T' : CorpusVocabulary,
           actions_to_arc_labels T' = actions_to_arc_labels T ->
           exists cerr,
             load regex
                  (IArchive (StrVec w :: StrVec p :: StrVec c :: BoolVec t :: StrVec a :: rest))
                  version T'
             = Some ((IArchive rest, cerr), V')
             /\ (length (int_to_words T') <= length w -> cerr = [])%nat).
Proof.
  intros Hfit Hless. exists (loaded regex w p c a t T).
  split.
  - rewrite load_eval. unfold shrinkage.
    rewrite Unsigned.of_size_small by exact Hfit.
    rewrite decide_True by lia. reflexivity.
  - repeat (split; [reflexivity || apply reindex_rebuilt|]).
    intros T' HT'. eexists. rewrite load_eval. split.
    + unfold loaded. now rewrite HT'.
    + intros Hle. unfold shrinkage. apply decide_False.
      pose proof (Unsigned.wrap_in_range (Z.of_nat (length (int_to_words T')))) as Hr.
      unfold Unsigned.of_size, Unsigned.wrap, Unsigned.in_range in *.
      pose proof (Z.mod_le (Z.of_nat (length (int_to_words T'))) Unsigned.modulus).
      unfold Unsigned.modulus in *. lia.
Qed.

Lemma load_shrinkage_warning_witness :
  Z.of_nat (length (int_to_words example_vocabulary)) < Unsigned.modulus
  /\ (length ["<BAD0>"%string] < length (int_to_words example_vocabulary))%nat
  /\ exists V',
      load arc_action_pattern
           (IArchive [StrVec ["<BAD0>"%string]; StrVec []; StrVec []; BoolVec [true]; StrVec []])
           0 example_vocabulary
      = Some ((IArchive [], [LostWords 1]), V')
      /\ int_to_words V' = ["<BAD0>"%string].
Proof.
  assert (Z.of_nat (length (int_to_words example_vocabulary)) < Unsigned.modulus) as H1
    by reflexivity.
  assert (length ["<BAD0>"%string] < length (int_to_words example_vocabulary))%nat as H2
    by (simpl; lia).
  split; [exact H1|]. split; [exact H2|].
  destruct (load_shrinkage_warning arc_action_pattern example_vocabulary
              ["<BAD0>"%string] [] [] [] [true] [] 0 H1 H2)
    as (V' & Hl & Hw & _).
  exists V'. split; [exact Hl|exact Hw].
Defined.

(** * Further properties of the header *)

(** ** [ReplaceStringInPlace] *)

Lemma string_length_append (s t : string) :
  String.length (s +:+ t) = (String.length s + String.length t)%nat.
Proof.
  induction s as [|c s IH]; [reflexivity|].
  rewrite append_cons. simpl. now rewrite IH.
Qed.

Lemma append_inj_length (a a' x x' : string) :
  a +:+ x = a' +:+ x' -> String.length a = String.length a' -> a = a' /\ x = x'.
Proof.
  revert a'. induction a as [|c a IH]; intros [|c' a'] H Hlen; try discriminate.
  - now rewrite !append_nil in H.
  - rewrite !append_cons in H. injection H as -> H. injection Hlen as Hlen.
    destruct (IH _ H Hlen) as [-> ->]. auto.
Qed.

Lemma string_drop_append (d r : string) (n : nat) :
  string_drop (String.length d + n) (d +:+ r) = string_drop n r.
Proof. induction d as [|c d IH]; [reflexivity|]. rewrite append_cons. exact IH. Qed.

Lemma string_take_append (d r : string) (n : nat) :
  string_take (String.length d + n) (d +:+ r) = d +:+ string_take n r.
Proof.
  induction d as [|c d IH]; [reflexivity|].
  rewrite !append_cons. simpl. now rewrite IH.
Qed.

Lemma string_take_0 (s : string) : string_take 0 s = EmptyString.
Proof. now destruct s. Qed.

Lemma find_at_shift (search s : string) (i : nat) :
  find_at search s i = (fun p => (i + p)%nat) <$> find_at search s 0.
Proof.
  revert i. induction s as [|c s IH]; intros i; simpl.
  - destruct (strip_prefix search ""); simpl; [f_equal; lia|reflexivity].
  - destruct (strip_prefix search (String c s)); simpl; [f_equal; lia|].
    rewrite (IH (S i)), (IH 1%nat).
    destruct (find_at search s 0); simpl; [f_equal; lia|reflexivity].
Qed.

(** [find_at] returns the start of an occurrence. *)
Lemma find_at_Some (search s : string) (p : nat) :
  find_at search s 0 = Some p ->
  exists a b, s = a +:+ search +:+ b /\ p = String.length a.
Proof.
  revert p. induction s as [|c s IH]; intros p; simpl.
  - destruct (strip_prefix search "") as [r|] eqn:E; [|discriminate].
    intros [= <-]. exists ""%string, r. split; [|reflexivity].
    rewrite append_nil. now apply strip_prefix_Some.
  - destruct (strip_prefix search (String c s)) as [r|] eqn:E.
    + intros [= <-]. exists ""%string, r. split; [|reflexivity].
      rewrite append_nil. now apply strip_prefix_Some.
    + rewrite find_at_shift. destruct (find_at search s 0) as [q|]; [|discriminate].
      intros [= <-]. destruct (IH q eq_refl) as (a & b & -> & ->).
      exists (String c a), b. split; reflexivity.
Qed.

(** A prefix of [x ++ y] no longer than [x] is a prefix of [x]. *)
Lemma strip_prefix_within (search x y r : string) :
  strip_prefix search (x +:+ y) = Some r ->
  (String.length search <= String.length x)%nat ->
  exists r', x = search +:+ r'.
Proof.
  revert x r. induction search as [|c search IH]; intros x r H Hlen.
  - exists x. reflexivity.
  - destruct x as [|c' x]; [simpl in Hlen; lia|].
    rewrite append_cons in H. simpl in H.
    destruct (decide (c = c')) as [->|]; [|discriminate].
    simpl in Hlen. destruct (IH x r H) as [r' ->]; [lia|].
    exists r'. reflexivity.
Qed.

(** When the occurrence of [search] that ends [a ++ search] is the only one
    in it, [find_at] finds it. *)
Lemma find_at_leftmost (search a b : string) :
  (forall a' b', a +:+ search = a' +:+ search +:+ b' -> a' = a) ->
  find_at search (a +:+ search +:+ b) 0 = Some (String.length a).
Proof.
  induction a as [|c a IH]; intros Hfirst.
  - rewrite append_nil.
    destruct (search +:+ b) eqn:E; simpl; rewrite <- E, strip_prefix_append; reflexivity.
  - rewrite append_cons. simpl.
    destruct (strip_prefix search (String c (a +:+ search +:+ b))) as [r|] eqn:E.
    + exfalso.
      replace (String c (a +:+ search +:+ b))
        with ((String c a +:+ search) +:+ b) in E
        by (rewrite append_assoc; reflexivity).
      apply strip_prefix_within in E as [r' Hr'].
      * specialize (Hfirst ""%string r'). rewrite append_nil in Hfirst.
        specialize (Hfirst Hr'). discriminate.
      * rewrite string_length_append. lia.
    + rewrite find_at_shift, IH; [reflexivity|].
      intros a' b' H. specialize (Hfirst (String c a') b').
      rewrite !append_cons in Hfirst. rewrite H in Hfirst.
      specialize (Hfirst eq_refl). now injection Hfirst.
Qed.

Lemma string_find_append (d r search : string) (q : nat) :
  string_find (d +:+ r) search (String.length d + q)
  = (fun p => (String.length d + p)%nat) <$> string_find r search q.
Proof.
  unfold string_find. rewrite string_length_append, string_drop_append.
  destruct (decide (q <= String.length r)%nat).
  - rewrite decide_True by lia.
    rewrite find_at_shift, (find_at_shift _ _ q).
    destruct (find_at search (string_drop q r) 0); simpl; [f_equal; lia|reflexivity].
  - rewrite decide_False by lia. reflexivity.
Qed.

Lemma string_replace_append (d r : string) (p len : nat) (x : string) :
  string_replace (d +:+ r) (String.length d + p) len x = d +:+ string_replace r p len x.
Proof.
  unfold string_replace.
  rewrite string_take_append, <- Nat.add_assoc, string_drop_append.
  now rewrite append_assoc.
Qed.

(** The loop does not look at what lies before [pos]. *)
Lemma ReplaceStringInPlace_loop_append (fuel : nat) (d r search replace : string) (q : nat) :
  ReplaceStringInPlace_loop fuel (d +:+ r) search replace (String.length d + q)
  = (fun res => d +:+ res) <$> ReplaceStringInPlace_loop fuel r search replace q.
Proof.
  revert r q. induction fuel as [|fuel IH]; intros r q; simpl; [reflexivity|].
  rewrite string_find_append.
  destruct (string_find r search q) as [p|]; simpl; [|reflexivity].
  rewrite string_replace_append, <- Nat.add_assoc. apply IH.
Qed.

Lemma string_find_0 (s search : string) : string_find s search 0 = find_at search s 0.
Proof. unfold string_find. rewrite decide_True by lia. now destruct s. Qed.

(** One turn of the loop from the start of the string. *)
Lemma ReplaceStringInPlace_step (fuel : nat) (a b search replace : string) :
  find_at search (a +:+ search +:+ b) 0 = Some (String.length a) ->
  ReplaceStringInPlace (S fuel) (a +:+ search +:+ b) search replace
  = (fun res => a +:+ replace +:+ res) <$> ReplaceStringInPlace fuel b search replace.
Proof.
  intros Hfind. unfold ReplaceStringInPlace. simpl.
  rewrite string_find_0, Hfind. unfold string_replace.
  pose proof (string_take_append a (search +:+ b) 0) as Ht.
  pose proof (string_drop_append (a +:+ search) b 0) as Hd.
  rewrite Nat.add_0_r, string_take_0 in Ht.
  rewrite string_length_append, Nat.add_0_r, append_assoc in Hd. simpl in Hd.
  rewrite Ht, Hd.
  replace (a +:+ "") with a by (clear; induction a as [|c a IH]; [reflexivity|rewrite append_cons; now f_equal]).
  pose proof (ReplaceStringInPlace_loop_append fuel (a +:+ replace) b search replace 0) as Hl.
  rewrite string_length_append, Nat.add_0_r, append_assoc in Hl.
  rewrite Hl.
  destruct (ReplaceStringInPlace_loop fuel b search replace 0); simpl; [|reflexivity].
  now rewrite append_assoc.
Qed.

Lemma ReplaceStringInPlace_none (fuel : nat) (s search replace : string) :
  find_at search s 0 = None ->
  ReplaceStringInPlace (S fuel) s search replace = Some s.
Proof.
  intros H. unfold ReplaceStringInPlace. simpl. now rewrite string_find_0, H.
Qed.

(** X1. With an empty search string the loop of [ReplaceStringInPlace]
    never ends: the empty string is found at every position, and the
    position only moves past the text just inserted.  No amount of fuel
    yields a result. *)
Theorem ReplaceStringInPlace_empty_search (fuel : nat) (subject replace : string) :
  ReplaceStringInPlace fuel subject "" replace = None.
Proof.
  revert subject. induction fuel as [|fuel IH]; intros subject; [reflexivity|].
  change subject with ("" +:+ "" +:+ subject).
  rewrite ReplaceStringInPlace_step by (now destruct subject).
  now rewrite IH.
Qed.

Lemma ReplaceStringInPlace_result (search replace : string) (n : nat) (subject : string) :
  search <> ""%string ->
  (String.length subject <= n)%nat ->
  exists result,
    forall fuel, (n < fuel)%nat ->
      ReplaceStringInPlace fuel subject search replace = Some result.
Proof.
  intros Hne. revert subject. induction n as [|n IH]; intros subject Hlen.
  - destruct (find_at search subject 0) as [p|] eqn:E.
    + apply find_at_Some in E as (a & b & -> & _).
      rewrite !string_length_append in Hlen. destruct search; [congruence|simpl in Hlen; lia].
    + exists subject. intros [|fuel] Hf; [lia|]. now apply ReplaceStringInPlace_none.
  - destruct (find_at search subject 0) as [p|] eqn:E.
    + pose proof E as E'. apply find_at_Some in E' as (a & b & -> & ->).
      destruct (IH b) as [r Hr].
      { rewrite !string_length_append in Hlen. destruct search; [congruence|simpl in Hlen; lia]. }
      exists (a +:+ replace +:+ r). intros [|fuel] Hf; [lia|].
      rewrite (ReplaceStringInPlace_step _ _ _ _ _ E), Hr by lia. reflexivity.
    + exists subject. intros [|fuel] Hf; [lia|]. now apply ReplaceStringInPlace_none.
Qed.

(** X2. With a non-empty search string [ReplaceStringInPlace] terminates:
    the loop condition is evaluated at most once more than the subject has
    characters, so every amount of fuel greater than the length of the
    subject gives a result, and the same one. *)
Theorem ReplaceStringInPlace_terminates (subject search replace : string) :
  search <> ""%string ->
  exists result,
    forall fuel, (String.length subject < fuel)%nat ->
      ReplaceStringInPlace fuel subject search replace = Some result.
Proof.
  intros Hne. now apply (ReplaceStringInPlace_result search replace (String.length subject)).
Qed.

Lemma ReplaceStringInPlace_terminates_witness :
  "-"%string <> ""%string
  /\ exists result,
      forall fuel, (String.length "a-b-c" < fuel)%nat ->
        ReplaceStringInPlace fuel "a-b-c" "-" "--" = Some result.
Proof.
  assert ("-"%string <> ""%string) as H by discriminate.
  split; [exact H|].
  exact (ReplaceStringInPlace_terminates "a-b-c" "-" "--" H).
Defined.

(** X3. A subject in which the search string does not occur is returned
    unchanged, after one evaluation of the loop condition. *)
Theorem ReplaceStringInPlace_no_occurrence (fuel : nat) (subject search replace : string) :
  (forall a b, subject <> a +:+ search +:+ b) ->
  ReplaceStringInPlace (S fuel) subject search replace = Some subject.
Proof.
  intros Hno. apply ReplaceStringInPlace_none.
  destruct (find_at search subject 0) as [p|] eqn:E; [|reflexivity].
  apply find_at_Some in E as (a & b & E & _). now destruct (Hno a b).
Qed.

Lemma ReplaceStringInPlace_no_occurrence_witness :
  (forall a b, "abc"%string <> a +:+ "-" +:+ b)
  /\ ReplaceStringInPlace 1 "abc" "-" "--" = Some "abc"%string.
Proof.
  assert (forall a b, "abc"%string <> a +:+ "-" +:+ b) as H.
  { intros a b E.
    assert (find_at "-" "abc" 0 = None) as Hf by reflexivity.
    destruct a as [|c0 [|c1 [|c2 [|c3 a]]]]; try discriminate E;
      destruct b; discriminate E. }
  split; [exact H|].
  exact (ReplaceStringInPlace_no_occurrence 0 "abc" "-" "--" H).
Defined.

(** X4. The leftmost occurrence is replaced and the scan resumes behind the
    inserted text, which is never searched again: when the occurrence that
    ends [a ++ search] is the first one in it, the result on
    [a ++ search ++ b] is [a ++ replace] followed by the result on [b],
    whatever [replace] contains. *)
Theorem ReplaceStringInPlace_leftmost (fuel : nat) (a b search replace : string) :
  (forall a' b', a +:+ search = a' +:+ search +:+ b' -> a' = a) ->
  ReplaceStringInPlace (S fuel) (a +:+ search +:+ b) search replace
  = (fun result => a +:+ replace +:+ result)
      <$> ReplaceStringInPlace fuel b search replace.
Proof.
  intros Hfirst. apply ReplaceStringInPlace_step. now apply find_at_leftmost.
Qed.

Lemma ReplaceStringInPlace_leftmost_witness :
  (forall a' b', "x" +:+ "a" = a' +:+ "a" +:+ b' -> a' = "x"%string)
  /\ ReplaceStringInPlace 3 "xaa" "a" "aa" = Some "xaaaa"%string.
Proof.
  assert (forall a' b', "x" +:+ "a" = a' +:+ "a" +:+ b' -> a' = "x"%string) as H.
  { intros a' b' E. destruct a' as [|c0 [|c1 a']]; cbv [String.append] in E.
    - discriminate E.
    - injection E as <- _. reflexivity.
    - injection E as _ _ E. destruct a'; discriminate E. }
  split; [exact H|].
  exact (ReplaceStringInPlace_leftmost 2 "x" "a" "a" "aa" H).
Defined.

(** X5. Replacing a non-empty string by itself terminates and returns the
    subject as it was. *)
Theorem ReplaceStringInPlace_same (subject search : string) (fuel : nat) :
  search <> ""%string ->
  (String.length subject < fuel)%nat ->
  ReplaceStringInPlace fuel subject search search = Some subject.
Proof.
  intros Hne. revert subject.
  induction fuel as [|fuel IH]; intros subject Hf; [lia|].
  destruct (find_at search subject 0) as [p|] eqn:E.
  - pose proof E as E'. apply find_at_Some in E' as (a & b & -> & ->).
    rewrite (ReplaceStringInPlace_step _ _ _ _ _ E), IH; [reflexivity|].
    rewrite !string_length_append in Hf. destruct search; [congruence|simpl in Hf; lia].
  - now apply ReplaceStringInPlace_none.
Qed.

Lemma ReplaceStringInPlace_same_witness :
  "ab"%string <> ""%string
  /\ (String.length "abab" < 5)%nat
  /\ ReplaceStringInPlace 5 "abab" "ab" "ab" = Some "abab"%string.
Proof.
  assert ("ab"%string <> ""%string) as H1 by discriminate.
  assert (String.length "abab" < 5)%nat as H2 by (simpl; lia).
  split; [exact H1|]. split; [exact H2|].
  exact (ReplaceStringInPlace_same "abab" "ab" 5 H1 H2).
Defined.

(** ** [UTF8Len] *)

(** X6. On a byte, [UTF8Len] is the length of the UTF-8 sequence the byte
    leads: 1 for 0x00-0x7F, 2 for 0xC0-0xDF, 3 for 0xE0-0xEF, 4 for
    0xF0-0xF7, 5 for 0xF8-0xFB, 6 for 0xFC-0xFD; and it is 0 exactly on the
    continuation bytes 0x80-0xBF and on 0xFE and 0xFF. *)
Theorem UTF8Len_ranges (x : Z) :
  0 <= x < 256 ->
  (UTF8Len x = 1 <-> x < 128)
  /\ (UTF8Len x = 2 <-> 192 <= x < 224)
  /\ (UTF8Len x = 3 <-> 224 <= x < 240)
  /\ (UTF8Len x = 4 <-> 240 <= x < 248)
  /\ (UTF8Len x = 5 <-> 248 <= x < 252)
  /\ (UTF8Len x = 6 <-> 252 <= x < 254)
  /\ (UTF8Len x = 0 <-> 128 <= x < 192 \/ 254 <= x).
Proof.
  intros Hx. unfold UTF8Len. rewrite !Z.shiftr_div_pow2 by lia.
  change (2 ^ 5) with 32. change (2 ^ 4) with 16. change (2 ^ 3) with 8.
  change (2 ^ 2) with 4. change (2 ^ 1) with 2.
  repeat destruct (decide _); Z.div_mod_to_equations; lia.
Qed.

Lemma UTF8Len_ranges_witness :
  0 <= 195 < 256 /\ UTF8Len 195 = 2.
Proof.
  assert (0 <= 195 < 256) as H by lia.
  split; [exact H|].
  exact (proj2 (proj1 (proj2 (UTF8Len_ranges 195 H))) ltac:(lia)).
Defined.

(** ** Tables: [AddEntry] and [GetOrAddEntry] *)

(** X7. On a well-formed table below the [unsigned] limit (the word, POS or
    character table), [GetOrAddEntry] keeps the table well-formed, returns
    an id under which both directions hold the string, changes no id
    already assigned, and either leaves the list alone or appends the
    string to it with the next dense id. *)
Theorem GetOrAddEntry_table_ok (str : string) (m : gmap string Z) (l : list string) :
  table_ok m l ->
  Z.of_nat (length l) < Unsigned.modulus ->
  let '(id, m', l') := GetOrAddEntry str m l in
  table_ok m' l'
  /\ m' !! str = Some id
  /\ l' !! Z.to_nat id = Some str
  /\ (forall w i, m !! w = Some i -> m' !! w = Some i)
  /\ ((m !! str = Some id /\ l' = l)
      \/ (m !! str = None /\ l' = l ++ [str] /\ id = Z.of_nat (length l))).
Proof.
  intros Hok Hlim. destruct (m !! str) as [i|] eqn:E.
  - rewrite (GetOrAddEntry_known _ _ _ _ E).
    split; [exact Hok|]. split; [exact E|].
    split; [now apply (proj1 Hok)|]. split; [auto|]. left. auto.
  - rewrite (GetOrAddEntry_fresh _ _ _ E), Unsigned.of_size_small by exact Hlim.
    split; [now apply table_ok_add|]. split; [apply lookup_insert_eq|].
    split; [rewrite Nat2Z.id; now apply list_lookup_middle|].
    split; [|right; auto].
    intros w i Hw. rewrite lookup_insert_ne; [exact Hw|congruence].
Qed.

Lemma GetOrAddEntry_table_ok_witness :
  table_ok ∅ []
  /\ Z.of_nat (length ([] : list string)) < Unsigned.modulus
  /\ GetOrAddEntry "NOUN" ∅ [] = (0, {["NOUN"%string := 0]}, ["NOUN"%string])
  /\ table_ok {["NOUN"%string := 0]} ["NOUN"%string].
Proof.
  assert (Z.of_nat (length ([] : list string)) < Unsigned.modulus) as H by reflexivity.
  split; [exact table_ok_empty|]. split; [exact H|]. split; [reflexivity|].
  exact (proj1 (GetOrAddEntry_table_ok "NOUN" ∅ [] table_ok_empty H)).
Defined.

(** X8. [GetOrAddEntry] is idempotent on any table: called again with the
    same string on the table it left, it returns the same id and changes
    nothing. *)
Theorem GetOrAddEntry_idempotent (str : string) (m : gmap string Z) (l : list string) :
  let r := GetOrAddEntry str m l in
  GetOrAddEntry str r.1.2 r.2 = r.
Proof.
  destruct (GetOrAddEntry str m l) as [[id m'] l'] eqn:E. simpl.
  apply GetOrAddEntry_lookup in E as [E _].
  now apply GetOrAddEntry_known.
Qed.

(** X9. [AddEntry] does not look the string up: for a string that is
    already in a well-formed table it still appends it to the list, while
    [std::map::insert] leaves the map as it is, so the table is no longer
    well-formed (the list is longer than the map). *)
Theorem AddEntry_present (str : string) (m : gmap string Z) (l : list string) (i : Z) :
  table_ok m l ->
  m !! str = Some i ->
  AddEntry str m l = (Int.wrap (Z.of_nat (length l)), m, l ++ [str])
  /\ ~ table_ok m (l ++ [str]).
Proof.
  intros [_ Hsize] Hi. unfold AddEntry. rewrite Hi. split; [reflexivity|].
  intros [_ Hsize']. rewrite length_app in Hsize'. simpl in Hsize'. lia.
Qed.

Lemma AddEntry_present_witness :
  table_ok {["NOUN"%string := 0]} ["NOUN"%string]
  /\ ({["NOUN"%string := 0]} : gmap string Z) !! "NOUN"%string = Some 0
  /\ ~ table_ok {["NOUN"%string := 0]} ["NOUN"; "NOUN"]%string.
Proof.
  assert (table_ok {["NOUN"%string := 0]} ["NOUN"%string]) as H1
    by exact (table_ok_add "NOUN" ∅ [] table_ok_empty (lookup_empty _)).
  assert (({["NOUN"%string := 0]} : gmap string Z) !! "NOUN"%string = Some 0) as H2
    by (vm_compute; reflexivity).
  split; [exact H1|]. split; [exact H2|].
  exact (proj2 (AddEntry_present "NOUN" _ _ 0 H1 H2)).
Defined.

(** ** The constructor and the counters *)

Lemma CountWords_eval (V : CorpusVocabulary) :
  CountWords V = Some (Unsigned.of_size (size (words_to_int V)), V).
Proof. reflexivity. Qed.

(** X10. The default constructor builds well-formed word, POS and character
    tables, with the reserved words at ids 0 and 1, the reserved character
    at id 0, both reserved words flagged as training words, and no
    actions, exactly when the literals [BAD0] and [UNK] differ; with equal
    literals the second [AddEntry] leaves a word list longer than the word
    map. *)
Theorem CorpusVocabulary_new_invariants (BAD0 UNK : string) (regex : string -> option string) :
  (BAD0 <> UNK ->
   let V := CorpusVocabulary_new BAD0 UNK in
   words_ok V
   /\ table_ok (pos_to_int V) (int_to_pos V)
   /\ table_ok (chars_to_int V) (int_to_chars V)
   /\ reserved BAD0 UNK V
   /\ chars_to_int V !! BAD0 = Some 0
   /\ int_to_training_word V = [true; true]
   /\ labels_ok regex V
   /\ CountWords V = Some (2, V)
   /\ CountPOS V = Some (0, V)
   /\ CountChars V = Some (1, V)
   /\ CountActions V = Some (0, V))
  /\ (BAD0 = UNK -> ~ words_ok (CorpusVocabulary_new BAD0 UNK)).
Proof.
  split.
  - intros Hne V.
    pose proof (CorpusVocabulary_new_words_ok BAD0 UNK Hne) as Hok.
    assert (table_ok (chars_to_int V) (int_to_chars V)) as Hc
      by exact (table_ok_add BAD0 ∅ [] table_ok_empty (lookup_empty _)).
    split; [exact Hok|]. split; [exact table_ok_empty|]. split; [exact Hc|].
    split; [now apply CorpusVocabulary_new_reserved|].
    split; [apply lookup_insert_eq|]. split; [reflexivity|]. split; [reflexivity|].
    split; [|split; [reflexivity|split; [|reflexivity]]].
    + rewrite CountWords_eval. destruct Hok as [[_ Hs] _]. subst V. now rewrite Hs.
    + unfold CountChars. method_unfold. destruct Hc as [_ Hs]. subst V. now rewrite Hs.
  - intros <- [[_ Hsize] _]. revert Hsize.
    unfold CorpusVocabulary_new, AddEntry. simpl.
    rewrite lookup_empty, lookup_insert_eq. simpl.
    rewrite map_size_insert_None by apply lookup_empty.
    rewrite map_size_empty. discriminate.
Qed.

Lemma CorpusVocabulary_new_invariants_witness :
  "<BAD0>"%string <> "<UNK>"%string
  /\ words_ok example_vocabulary
  /\ "<UNK>"%string = "<UNK>"%string
  /\ ~ words_ok (CorpusVocabulary_new "<UNK>" "<UNK>").
Proof.
  assert ("<BAD0>"%string <> "<UNK>"%string) as H by discriminate.
  split; [exact H|].
  split; [exact (proj1 (proj1 (CorpusVocabulary_new_invariants "<BAD0>" "<UNK>"
                                 arc_action_pattern) H))|].
  split; [reflexivity|].
  exact (proj2 (CorpusVocabulary_new_invariants "<UNK>" "<UNK>" arc_action_pattern)
               eq_refl).
Defined.

(** ** Words *)

(** X11. A word that is not in a well-formed word table with room below
    the [unsigned] limit gets the next dense id, which is the word count
    before the call: the word is appended to the list, its flag (the
    argument) to the flags, the count grows by one, and [GetWord] then
    returns the new id. *)
Theorem GetOrAddWord_new_word (UNK word : string) (b : bool) (V : CorpusVocabulary) :
  words_ok V ->
  Z.of_nat (length (int_to_words V)) + 1 < Unsigned.modulus ->
  words_to_int V !! word = None ->
  exists V',
    GetOrAddWord word b V = Some (Z.of_nat (length (int_to_words V)), V')
    /\ CountWords V = Some (Z.of_nat (length (int_to_words V)), V)
    /\ CountWords V' = Some (Z.of_nat (length (int_to_words V)) + 1, V')
    /\ int_to_words V' = int_to_words V ++ [word]
    /\ int_to_training_word V' = int_to_training_word V ++ [b]
    /\ int_to_training_word V' !! length (int_to_words V) = Some b
    /\ GetWord UNK word V' = Some (Z.of_nat (length (int_to_words V)), V').
Proof.
  intros Hok Hlim Hfresh. eexists.
  split; [exact (GetOrAddWord_fresh word b V Hok Hlim Hfresh)|].
  destruct Hok as [[Hbij Hsize] Hflags].
  rewrite !CountWords_eval, GetWord_eval. simpl.
  rewrite map_size_insert_None by exact Hfresh. rewrite Hsize.
  rewrite !Unsigned.of_size_small by lia.
  rewrite lookup_insert_eq.
  split; [reflexivity|]. split; [do 2 f_equal; lia|].
  split; [reflexivity|]. split; [reflexivity|]. split; [|reflexivity].
  rewrite <- Hflags. now apply list_lookup_middle.
Qed.

Lemma GetOrAddWord_new_word_witness :
  words_ok example_vocabulary
  /\ Z.of_nat (length (int_to_words example_vocabulary)) + 1 < Unsigned.modulus
  /\ words_to_int example_vocabulary !! "dog"%string = None
  /\ exists V',
      GetOrAddWord "dog" true example_vocabulary = Some (2, V')
      /\ int_to_words V' = ["<BAD0>"; "<UNK>"; "dog"]%string.
Proof.
  assert (words_ok example_vocabulary) as H1
    by exact (CorpusVocabulary_new_words_ok "<BAD0>" "<UNK>" ltac:(discriminate)).
  assert (Z.of_nat (length (int_to_words example_vocabulary)) + 1 < Unsigned.modulus)
    as H2 by reflexivity.
  assert (words_to_int example_vocabulary !! "dog"%string = None) as H3
    by (vm_compute; reflexivity).
  split; [exact H1|]. split; [exact H2|]. split; [exact H3|].
  destruct (GetOrAddWord_new_word "<UNK>" "dog" true example_vocabulary H1 H2 H3)
    as (V' & E & _ & _ & Hl & _).
  exists V'. split; [exact E|exact Hl].
Defined.

(** X12. Whatever the object, a [GetOrAddWord] call that is defined leaves
    the POS table, the character table, the actions and the arc labels as
    they were, never shortens or reorders the word list (it is unchanged or
    has the word appended), and keeps the number of flags or adds one. *)
Theorem GetOrAddWord_frame (word : string) (b : bool) (V V' : CorpusVocabulary) (id : Z) :
  GetOrAddWord word b V = Some (id, V') ->
  pos_to_int V' = pos_to_int V
  /\ int_to_pos V' = int_to_pos V
  /\ chars_to_int V' = chars_to_int V
  /\ int_to_chars V' = int_to_chars V
  /\ actions V' = actions V
  /\ actions_to_arc_labels V' = actions_to_arc_labels V
  /\ (int_to_words V' = int_to_words V \/ int_to_words V' = int_to_words V ++ [word])
  /\ (length (int_to_training_word V') = length (int_to_training_word V)
      \/ int_to_training_word V' = int_to_training_word V ++ [b]).
Proof.
  rewrite GetOrAddWord_eval.
  assert (forall id0 m l,
             GetOrAddEntry word (words_to_int V) (int_to_words V) = (id0, m, l) ->
             l = int_to_words V \/ l = int_to_words V ++ [word]) as Hlist.
  { intros id0 m l. destruct (words_to_int V !! word) as [i|] eqn:E.
    - rewrite (GetOrAddEntry_known _ _ _ _ E). intros [= _ _ <-]. auto.
    - rewrite (GetOrAddEntry_fresh _ _ _ E). intros [= _ _ <-]. auto. }
  destruct (GetOrAddEntry word (words_to_int V) (int_to_words V)) as [[id0 m] l] eqn:E.
  specialize (Hlist _ _ _ eq_refl).
  destruct (decide _).
  - intros [= <- <-]. simpl. repeat (split; [reflexivity|]). auto.
  - destruct (int_to_training_word V !! Z.to_nat id0); [|discriminate].
    intros [= <- <-]. simpl. repeat (split; [reflexivity|]).
    split; [exact Hlist|]. left. apply length_insert.
Qed.

Lemma GetOrAddWord_frame_witness :
  GetOrAddWord "<UNK>" false example_vocabulary = Some (1, example_vocabulary)
  /\ int_to_chars example_vocabulary = ["<BAD0>"%string].
Proof.
  assert (GetOrAddWord "<UNK>" false example_vocabulary = Some (1, example_vocabulary))
    as H by (vm_compute; reflexivity).
  split; [exact H|].
  exact (proj1 (proj2 (proj2 (proj2
           (GetOrAddWord_frame "<UNK>" false example_vocabulary example_vocabulary 1 H))))).
Defined.

(** X13. Every object the class builds (by the constructors, by defined
    [GetOrAddWord] calls, by loading what such an object saved, by changes
    to the other members) has a well-formed word table of fewer than 2^32
    words with one flag per word and the reserved words at ids 0 and 1, and
    [CountWords] returns the length of its word list. *)
Theorem constructed_invariant (BAD0 UNK : string) (regex : string -> option string)
    (V : CorpusVocabulary) :
  BAD0 <> UNK ->
  constructed BAD0 UNK regex V ->
  words_ok V
  /\ Z.of_nat (length (int_to_words V)) < Unsigned.modulus
  /\ reserved BAD0 UNK V
  /\ int_to_words V !! 0%nat = Some BAD0
  /\ int_to_words V !! 1%nat = Some UNK
  /\ CountWords V = Some (Z.of_nat (length (int_to_words V)), V).
Proof.
  intros Hne HV.
  destruct (constructed_words BAD0 UNK regex V Hne HV) as (Hok & Hlim & Hres).
  split; [exact Hok|]. split; [exact Hlim|]. split; [exact Hres|].
  destruct Hok as [[Hbij Hsize] _]. destruct Hres as [H0 H1].
  split; [exact (proj2 (proj1 (Hbij _ _) H0))|].
  split; [exact (proj2 (proj1 (Hbij _ _) H1))|].
  rewrite CountWords_eval, Hsize, Unsigned.of_size_small by exact Hlim. reflexivity.
Qed.

Lemma constructed_invariant_witness :
  "<BAD0>"%string <> "<UNK>"%string
  /\ constructed "<BAD0>" "<UNK>" arc_action_pattern
       (CorpusVocabulary_copy example_vocabulary)
  /\ words_ok (CorpusVocabulary_copy example_vocabulary).
Proof.
  assert ("<BAD0>"%string <> "<UNK>"%string) as H1 by discriminate.
  assert (constructed "<BAD0>" "<UNK>" arc_action_pattern
            (CorpusVocabulary_copy example_vocabulary)) as H2
    by (apply constructed_copy, constructed_new).
  split; [exact H1|]. split; [exact H2|].
  exact (proj1 (constructed_invariant "<BAD0>" "<UNK>" arc_action_pattern _ H1 H2)).
Defined.

(** X14. On a well-formed word table that holds the reserved words,
    [GetWord] returns an id of the table: the word list holds the text at
    the returned id, or the text is not in the table and the list holds
    [UNK] there. *)
Theorem GetWord_in_range (BAD0 UNK text : string) (V : CorpusVocabulary) :
  words_ok V ->
  reserved BAD0 UNK V ->
  exists id,
    GetWord UNK text V = Some (id, V)
    /\ 0 <= id < Z.of_nat (length (int_to_words V))
    /\ ((words_to_int V !! text = Some id /\ int_to_words V !! Z.to_nat id = Some text)
        \/ ((text ∉ int_to_words V) /\ int_to_words V !! Z.to_nat id = Some UNK)).
Proof.
  intros [[Hbij _] _] [_ Hunk]. rewrite GetWord_eval.
  destruct (words_to_int V !! text) as [id|] eqn:E.
  - exists id. pose proof (proj1 (Hbij _ _) E) as [Hid Hl].
    split; [reflexivity|]. split; [|left; auto].
    apply lookup_lt_Some in Hl. lia.
  - rewrite Hunk. exists 1. pose proof (proj1 (Hbij _ _) Hunk) as [Hid Hl].
    split; [reflexivity|]. split; [apply lookup_lt_Some in Hl; lia|].
    right. split; [|exact Hl].
    intros Hin. apply list_elem_of_lookup in Hin as [k Hk].
    assert (words_to_int V !! text = Some (Z.of_nat k)) as Hm
      by (apply Hbij; split; [lia|now rewrite Nat2Z.id]).
    congruence.
Qed.

Lemma GetWord_in_range_witness :
  words_ok example_vocabulary
  /\ reserved "<BAD0>" "<UNK>" example_vocabulary
  /\ exists id,
      GetWord "<UNK>" "dog" example_vocabulary = Some (id, example_vocabulary)
      /\ 0 <= id < 2.
Proof.
  assert (words_ok example_vocabulary) as H1
    by exact (CorpusVocabulary_new_words_ok "<BAD0>" "<UNK>" ltac:(discriminate)).
  assert (reserved "<BAD0>" "<UNK>" example_vocabulary) as H2
    by (split; vm_compute; reflexivity).
  split; [exact H1|]. split; [exact H2|].
  destruct (GetWord_in_range "<BAD0>" "<UNK>" "dog" example_vocabulary H1 H2)
    as (id & E & Hr & _).
  exists id. split; [exact E|exact Hr].
Defined.

(** ** Part-of-speech tags *)

(** X16. On a well-formed POS table of fewer than 2^32 tags the sentinel of
    [GetPOS] is no tag's id: the result is the sentinel exactly when the tag
    is not in the table, and any other result is an id at which the tag
    list holds the tag. *)
Theorem GetPOS_sentinel (tag : string) (V : CorpusVocabulary) :
  table_ok (pos_to_int V) (int_to_pos V) ->
  Z.of_nat (length (int_to_pos V)) < Unsigned.modulus ->
  exists id,
    GetPOS tag V = Some (id, V)
    /\ (id = 4294967295 <-> pos_to_int V !! tag = None)
    /\ (id <> 4294967295 -> int_to_pos V !! Z.to_nat id = Some tag).
Proof.
  intros [Hbij _] Hlim. unfold GetPOS. method_unfold.
  destruct (pos_to_int V !! tag) as [id|] eqn:E.
  - exists id. pose proof (proj1 (Hbij _ _) E) as [Hid Hl].
    split; [reflexivity|]. split; [|auto].
    split; [|discriminate]. intros ->.
    apply lookup_lt_Some in Hl. unfold Unsigned.modulus in Hlim. lia.
  - exists 4294967295. split; [reflexivity|]. split; [tauto|congruence].
Qed.

Lemma GetPOS_sentinel_witness :
  table_ok (pos_to_int example_vocabulary) (int_to_pos example_vocabulary)
  /\ Z.of_nat (length (int_to_pos example_vocabulary)) < Unsigned.modulus
  /\ exists id, GetPOS "NOUN" example_vocabulary = Some (id, example_vocabulary)
                /\ (id = 4294967295 <-> pos_to_int example_vocabulary !! "NOUN"%string = None).
Proof.
  assert (Z.of_nat (length (int_to_pos example_vocabulary)) < Unsigned.modulus) as H
    by reflexivity.
  split; [exact table_ok_empty|]. split; [exact H|].
  destruct (GetPOS_sentinel "NOUN" example_vocabulary table_ok_empty H)
    as (id & E & Hs & _).
  exists id. split; [exact E|exact Hs].
Defined.

(** ** Loading *)

Lemma reindex_last (l : list string) (i : nat) (m : gmap string Z) (w : string) (k : nat) :
  l !! k = Some w ->
  (forall j, (k < j)%nat -> l !! j <> Some w) ->
  reindex i l m !! w = Some (Unsigned.of_size (i + k)).
Proof.
  revert i m k. induction l as [|s rest IH]; intros i m k Hk Hlast.
  - now rewrite lookup_nil in Hk.
  - destruct k as [|k]; simpl in *.
    + injection Hk as ->.
      assert (w ∉ rest) as Hout.
      { intros Hin. apply list_elem_of_lookup in Hin as [j Hj].
        now apply (Hlast (S j)); [lia|]. }
      rewrite (proj2 (reindex_rebuilds rest (S i) _ w) Hout).
      rewrite lookup_insert_eq. do 2 f_equal. lia.
    + rewrite (IH (S i) _ k Hk).
      * do 2 f_equal. lia.
      * intros j Hj. apply (Hlast (S j)). lia.
Qed.

(** X18. When a string occurs more than once in a loaded list, the rebuilt
    reverse mapping holds its last position: the loop assigns through
    [operator[]], which overwrites, where [AddEntry] inserts without
    overwriting. *)
Theorem load_duplicate_last (regex : string -> option string) (w p c a : list string)
    (t : list bool) (T : CorpusVocabulary) (word : string) (k : nat) :
  w !! k = Some word ->
  (forall j, (k < j)%nat -> w !! j <> Some word) ->
  words_to_int (loaded regex w p c a t T) !! word = Some (Unsigned.of_size k).
Proof. intros Hk Hlast. simpl. exact (reindex_last w 0 ∅ word k Hk Hlast). Qed.

Lemma load_duplicate_last_witness :
  ["a"; "b"; "a"]%string !! 2%nat = Some "a"%string
  /\ (forall j, (2 < j)%nat -> ["a"; "b"; "a"]%string !! j <> Some "a"%string)
  /\ words_to_int (loaded arc_action_pattern ["a"; "b"; "a"]%string [] [] []
                          [true; true; true] example_vocabulary) !! "a"%string
     = Some 2.
Proof.
  assert (["a"; "b"; "a"]%string !! 2%nat = Some "a"%string) as H1 by reflexivity.
  assert (forall j, (2 < j)%nat -> ["a"; "b"; "a"]%string !! j <> Some "a"%string) as H2.
  { intros [|[|[|j]]] Hj; [lia|lia|lia|discriminate]. }
  split; [exact H1|]. split; [exact H2|].
  exact (load_duplicate_last arc_action_pattern _ [] [] [] [true; true; true]
           example_vocabulary "a" 2 H1 H2).
Defined.

(** X19. [load] does not compare the length of the flag vector with the
    length of the word list.  An archive with fewer flags than words loads,
    and afterwards [GetOrAddWord] on a loaded word that has no flag indexes
    the flag vector out of range. *)
Theorem load_short_flags (regex : string -> option string) (w p c a : list string)
    (t : list bool) (rest : list item) (version : Z) (T : CorpusVocabulary)
    (word : string) (k : nat) (b : bool) :
  w !! k = Some word ->
  (forall j, (k < j)%nat -> w !! j <> Some word) ->
  (length t <= k)%nat ->
  Z.of_nat k < Unsigned.modulus ->
  exists cerr V',
    load regex (IArchive (StrVec w :: StrVec p :: StrVec c :: BoolVec t :: StrVec a :: rest))
         version T
    = Some ((IArchive rest, cerr), V')
    /\ GetOrAddWord word b V' = None.
Proof.
  intros Hk Hlast Hshort Hlim. eexists _, _. split; [apply load_eval|].
  assert (words_to_int (loaded regex w p c a t T) !! word = Some (Unsigned.of_size k))
    as Hw by exact (reindex_last w 0 ∅ word k Hk Hlast).
  rewrite Unsigned.of_size_small in Hw by exact Hlim.
  rewrite GetOrAddWord_eval, (GetOrAddEntry_known _ _ _ _ Hw).
  rewrite decide_False by lia. simpl.
  rewrite Nat2Z.id, lookup_ge_None_2; [reflexivity|exact Hshort].
Qed.

Lemma load_short_flags_witness :
  ["<BAD0>"; "<UNK>"]%string !! 1%nat = Some "<UNK>"%string
  /\ (forall j, (1 < j)%nat -> ["<BAD0>"; "<UNK>"]%string !! j <> Some "<UNK>"%string)
  /\ (length [true] <= 1)%nat
  /\ Z.of_nat 1 < Unsigned.modulus
  /\ exists cerr V',
      load arc_action_pattern
           (IArchive [StrVec ["<BAD0>"; "<UNK>"]%string; StrVec []; StrVec [];
                      BoolVec [true]; StrVec []])
           0 example_vocabulary
      = Some ((IArchive [], cerr), V')
      /\ GetOrAddWord "<UNK>" false V' = None.
Proof.
  assert (["<BAD0>"; "<UNK>"]%string !! 1%nat = Some "<UNK>"%string) as H1 by reflexivity.
  assert (forall j, (1 < j)%nat -> ["<BAD0>"; "<UNK>"]%string !! j <> Some "<UNK>"%string)
    as H2 by (intros [|[|j]] Hj; [lia|lia|discriminate]).
  assert (length [true] <= 1)%nat as H3 by (simpl; lia).
  assert (Z.of_nat 1 < Unsigned.modulus) as H4 by reflexivity.
  split; [exact H1|]. split; [exact H2|]. split; [exact H3|]. split; [exact H4|].
  exact (load_short_flags arc_action_pattern _ [] [] [] [true] [] 0 example_vocabulary
           "<UNK>" 1 false H1 H2 H3 H4).
Defined.

(** X15. [load] does not check that the loaded word list holds the reserved
    words.  After loading a word list without [UNK], [GetWord] on a text
    that is not in the list dereferences the end of the map: it is
    undefined. *)
Theorem load_without_UNK (UNK text : string) (regex : string -> option string)
    (w p c a : list string) (t : list bool) (rest : list item) (version : Z)
    (T : CorpusVocabulary) :
  UNK ∉ w ->
  text ∉ w ->
  exists cerr V',
    load regex (IArchive (StrVec w :: StrVec p :: StrVec c :: BoolVec t :: StrVec a :: rest))
         version T
    = Some ((IArchive rest, cerr), V')
    /\ GetWord UNK text V' = None.
Proof.
  intros Hunk Htext. eexists _, _. split; [apply load_eval|].
  rewrite GetWord_eval. simpl.
  rewrite (proj2 (reindex_rebuilt w text) Htext).
  now rewrite (proj2 (reindex_rebuilt w UNK) Hunk).
Qed.

Lemma load_without_UNK_witness :
  ("<UNK>"%string ∉ ["the"%string])
  /\ ("dog"%string ∉ ["the"%string])
  /\ exists cerr V',
      load arc_action_pattern
           (IArchive [StrVec ["the"%string]; StrVec []; StrVec []; BoolVec [true]; StrVec []])
           0 example_vocabulary
      = Some ((IArchive [], cerr), V')
      /\ GetWord "<UNK>" "dog" V' = None.
Proof.
  assert ("<UNK>"%string ∉ ["the"%string]) as H1
    by (intros H; apply list_elem_of_singleton in H; discriminate H).
  assert ("dog"%string ∉ ["the"%string]) as H2
    by (intros H; apply list_elem_of_singleton in H; discriminate H).
  split; [exact H1|]. split; [exact H2|].
  exact (load_without_UNK "<UNK>" "dog" arc_action_pattern _ [] [] [] [true] [] 0
           example_vocabulary H1 H2).
Defined.

(** ** Saving and loading together *)

Lemma persisted_loaded (regex : string -> option string) (V T : CorpusVocabulary) :
  persisted (loaded regex (int_to_words V) (int_to_pos V) (int_to_chars V) (actions V)
                    (int_to_training_word V) T)
  = persisted V.
Proof. reflexivity. Qed.

(** X20. Saving what was loaded writes the archive that was read: for every
    vocabulary [V] and every load target, [save] of the object that [load]
    leaves after reading [save V] appends to any archive exactly what
    [save V] appends. *)
Theorem save_load_save (regex : string -> option string) (V T : CorpusVocabulary)
    (version : Z) (pre rest : list item) :
  exists ar cerr V',
    save (OArchive []) version V = Some ar
    /\ load regex (IArchive (written ar ++ rest)) version T
       = Some ((IArchive rest, cerr), V')
    /\ save (OArchive pre) version V' = save (OArchive pre) version V
    /\ save (OArchive pre) version V = Some (OArchive (pre ++ written ar)).
Proof.
  eexists _, _, _. split; [apply save_eval|]. simpl.
  split; [apply load_eval|].
  rewrite !save_eval, persisted_loaded. auto.
Qed.

(** X21. Archives are streams: two vocabularies saved one after the other
    into one archive are read back, in that order, by two loads, each load
    consuming the five fields of one vocabulary and leaving the rest. *)
Theorem save_save_load_load (regex : string -> option string)
    (V1 V2 T1 T2 : CorpusVocabulary) (version : Z) :
  exists ar1 ar2 mid cerr1 cerr2 V1' V2',
    save (OArchive []) version V1 = Some ar1
    /\ save ar1 version V2 = Some ar2
    /\ load regex (IArchive (written ar2)) version T1 = Some ((mid, cerr1), V1')
    /\ load regex mid version T2 = Some ((IArchive [], cerr2), V2')
    /\ persisted V1' = persisted V1
    /\ persisted V2' = persisted V2.
Proof.
  eexists _, _, _, _, _, _, _.
  split; [apply save_eval|]. split; [apply save_eval|]. simpl.
  split; [apply load_eval|]. split; [apply load_eval|].
  split; reflexivity.
Qed.

(** X23. Loading into an object that comes straight from a constructor
    gives one derived label per action: the default constructor and the
    copy constructor (whatever arc labels its source holds) both leave the
    arc labels empty, so the labels after [load] are exactly the ones
    derived from the loaded actions, in order. *)
Theorem load_into_constructed (BAD0 UNK : string) (regex : string -> option string)
    (other : CorpusVocabulary) (w p c a : list string) (t : list bool)
    (rest : list item) (version : Z) :
  (exists cerr V',
      load regex (IArchive (StrVec w :: StrVec p :: StrVec c :: BoolVec t :: StrVec a :: rest))
           version (CorpusVocabulary_new BAD0 UNK)
      = Some ((IArchive rest, cerr), V')
      /\ actions V' = a
      /\ actions_to_arc_labels V' = map (GetLabelForAction regex) a)
  /\ (exists cerr V',
         load regex (IArchive (StrVec w :: StrVec p :: StrVec c :: BoolVec t :: StrVec a :: rest))
              version (CorpusVocabulary_copy other)
         = Some ((IArchive rest, cerr), V')
         /\ actions V' = a
         /\ actions_to_arc_labels V' = map (GetLabelForAction regex) a).
Proof.
  split; eexists _, _; (split; [apply load_eval|]); split; reflexivity.
Qed.

(** ** Sentences *)

(** X22. [Size] counts the ROOT token: the size of a sentence whose word map
    stores the ROOT token is the number of its real tokens plus one, and is
    never zero. *)
Theorem Size_counts_ROOT (s : Sentence) (root_word : Z) :
  TokenMap.find Corpus.ROOT_TOKEN_ID (words s) = Some root_word ->
  exists real,
    TokenMap.entries (words s) = real ++ [(Corpus.ROOT_TOKEN_ID, root_word)]
    /\ Size s = S (length real).
Proof.
  intros H. destruct (TokenMap_root_last (words s) root_word H) as (real & E & _).
  exists real. split; [exact E|].
  unfold Size, TokenMap.size. rewrite E, length_app. simpl. lia.
Qed.

Lemma Size_counts_ROOT_witness :
  TokenMap.find Corpus.ROOT_TOKEN_ID (words example_sentence) = Some 9
  /\ exists real,
      TokenMap.entries (words example_sentence) = real ++ [(Corpus.ROOT_TOKEN_ID, 9)]
      /\ Size example_sentence = S (length real).
Proof.
  assert (TokenMap.find Corpus.ROOT_TOKEN_ID (words example_sentence) = Some 9) as H
    by reflexivity.
  split; [exact H|].
  exact (Size_counts_ROOT example_sentence 9 H).
Defined.
